(** * VocalEye: the document renderer of [modules/llm_tools/create_file.py]

    A shallow embedding of the block parser, the palette selector, the
    greedy line wrapping, the three renderers and the [file_generator]
    entry point, with the properties the specification states about them.

    Conventions.
    - A Python [str] is a list of characters, [str := list ascii]; a
      character is one code point of the range U+0000..U+00FF.  The
      character classes below ([isspace], [isword], line boundaries) are
      Python's classes on that range.
    - A Python exception is a value of [exn]; code that can raise returns
      a [result].
    - Calls into third-party libraries (the language model, reportlab,
      python-docx, python-pptx, the operating system) are modelled by what
      the program hands to them: the list of flowables, of paragraphs, of
      slides, the file written.  Whether such a call returns or raises is
      not the program's: in [file_generator] it is read from the
      surroundings ([env]). *)

From stdpp Require Import gmap strings.
From Stdlib Require Import String Ascii List ZArith NArith Lia Bool.
Import ListNotations.

Local Open Scope list_scope.
Local Open Scope nat_scope.

(** ** Strings *)

Definition str := list ascii.

Definition lit (s : string) : str := list_ascii_of_string s.

Definition code (c : ascii) : N := N_of_ascii c.

(** [str.isspace] on U+0000..U+00FF: TAB..CR, FS..US, SPACE, NEL, NBSP.
    [strip], [lstrip], [rstrip] and [split] without argument all use it. *)
Definition isspace (c : ascii) : bool :=
  let n := code c in
  ((9 <=? n) && (n <=? 13) || (28 <=? n) && (n <=? 32)
   || (n =? 133) || (n =? 160))%N.

(** [\w] of the [re] module on U+0000..U+00FF. *)
Definition isword (c : ascii) : bool :=
  let n := code c in
  ((48 <=? n) && (n <=? 57) || (65 <=? n) && (n <=? 90) || (n =? 95)
   || (97 <=? n) && (n <=? 122) || (n =? 170) || (178 <=? n) && (n <=? 179)
   || (n =? 181) || (185 <=? n) && (n <=? 186) || (188 <=? n) && (n <=? 190)
   || (192 <=? n) && (n <=? 214) || (216 <=? n) && (n <=? 246)
   || (248 <=? n) && (n <=? 255))%N.

Definition LF : ascii := ascii_of_N 10.
Definition CR : ascii := ascii_of_N 13.
Definition SPACE : ascii := ascii_of_N 32.
Definition SOFT_HYPHEN : ascii := ascii_of_N 173.

(** The line boundaries of [str.splitlines] other than CR and CR LF:
    LF, VT, FF, FS, GS, RS, NEL. *)
Definition is_linebreak (c : ascii) : bool :=
  let n := code c in
  ((10 <=? n) && (n <=? 12) || (28 <=? n) && (n <=? 30) || (n =? 133))%N.

Fixpoint dropwhile (p : ascii -> bool) (s : str) : str :=
  match s with
  | [] => []
  | c :: s' => if p c then dropwhile p s' else s
  end.

Definition lstrip (s : str) : str := dropwhile isspace s.
Definition rstrip (s : str) : str := rev (dropwhile isspace (rev s)).
Definition strip (s : str) : str := rstrip (lstrip s).

(** [s.split()]: the maximal runs of non-whitespace characters. [w] is
    the word being read. *)
Fixpoint split_from (w : str) (s : str) : list str :=
  match s with
  | [] => match w with [] => [] | _ => [w] end
  | c :: s' =>
      if isspace c
      then match w with [] => split_from [] s' | _ => w :: split_from [] s' end
      else split_from (w ++ [c]) s'
  end.

Definition split (s : str) : list str := split_from [] s.

(** [s.splitlines()]: [cur] is the line being read; a line break ends it,
    CR LF counts as one break, and no empty last line is produced. *)
Fixpoint splitlines_from (cur : str) (s : str) : list str :=
  match s with
  | [] => match cur with [] => [] | _ => [cur] end
  | c :: s' =>
      if Ascii.eqb c CR then
        match s' with
        | c' :: s'' =>
            if Ascii.eqb c' LF then cur :: splitlines_from [] s''
            else cur :: splitlines_from [] s'
        | [] => cur :: splitlines_from [] s'
        end
      else if is_linebreak c then cur :: splitlines_from [] s'
      else splitlines_from (cur ++ [c]) s'
  end.

Definition splitlines (s : str) : list str := splitlines_from [] s.

Fixpoint startswith (s p : str) : bool :=
  match p, s with
  | [], _ => true
  | a :: p', b :: s' => Ascii.eqb a b && startswith s' p'
  | _ :: _, [] => false
  end.

(** [s.replace(old, new)] for a non-empty [old]: occurrences are found
    from the left and do not overlap.  [fuel] bounds the scan; the length
    of [s] is enough. *)
Fixpoint replace_loop (fuel : nat) (old new s : str) : str :=
  match fuel with
  | O => s
  | S n =>
      match s with
      | [] => []
      | c :: s' =>
          if startswith s old
          then new ++ replace_loop n old new (skipn (length old) s)
          else c :: replace_loop n old new s'
      end
  end.

Definition replace (old new s : str) : str := replace_loop (length s) old new s.

(** ** Exceptions *)

Inductive exn : Type :=
| IndexError
| KeyError
| ValueError
| RuntimeError (msg : str)
| OSError.

Inductive result (A : Type) : Type :=
| Ok (a : A)
| Raise (e : exn).
Arguments Ok {A} a.
Arguments Raise {A} e.

Definition bind {A B} (r : result A) (k : A -> result B) : result B :=
  match r with
  | Ok a => k a
  | Raise e => Raise e
  end.

Notation "'let*' x ':=' r 'in' k" := (bind r (fun x => k))
  (at level 10, x name, r at level 100, k at level 200).

(** ** The regular expressions of the module

    Every pattern the module gives to [re.sub] is a sequence of items, an
    item being a character class with a quantifier: once, one or more
    greedy ([+]) or one or more lazy ([+?]); the items inside the
    parentheses of group 1 are marked.  [re_match] lists the ways the
    pattern matches a prefix of the string in the order the backtracking
    matcher of [re] tries them, so that the match [re] finds is the first
    of the list. *)

Inductive quantifier : Type := Once | GreedyPlus | LazyPlus.

Record item : Type := Item {
  cls : ascii -> bool;
  quant : quantifier;
  in_group : bool
}.

Definition regex := list item.

(** The non-empty prefixes of [s] made of characters of the class, with
    what follows them, shortest first. *)
Fixpoint plus_splits (p : ascii -> bool) (s : str) : list (str * str) :=
  match s with
  | [] => []
  | c :: s' =>
      if p c
      then ([c], s') :: map (fun ar => (c :: fst ar, snd ar)) (plus_splits p s')
      else []
  end.

Definition item_alts (it : item) (s : str) : list (str * str) :=
  match quant it with
  | Once =>
      match s with
      | c :: s' => if cls it c then [([c], s')] else []
      | [] => []
      end
  | LazyPlus => plus_splits (cls it) s
  | GreedyPlus => rev (plus_splits (cls it) s)
  end.

(** The matches of [r] at the start of [s]: the text of group 1 and the
    rest of the string after the match. *)
Fixpoint re_match (r : regex) (s : str) : list (str * str) :=
  match r with
  | [] => [([], s)]
  | it :: r' =>
      flat_map
        (fun ar =>
           map (fun gr => ((if in_group it then fst ar ++ fst gr else fst gr),
                           snd gr))
               (re_match r' (snd ar)))
        (item_alts it s)
  end.

(** [re.sub(r, repl, s)] where [repl] is given as a function of the text
    of group 1.  The scan goes on after a match, or one character further
    when there is none.  [fuel] bounds the scan. *)
Fixpoint sub_loop (fuel : nat) (r : regex) (repl : str -> str) (s : str) : str :=
  match fuel with
  | O => s
  | S n =>
      match s with
      | [] => []
      | c :: s' =>
          match re_match r s with
          | (g, rest) :: _ => repl g ++ sub_loop n r repl rest
          | [] => c :: sub_loop n r repl s'
          end
      end
  end.

Definition re_sub (r : regex) (repl : str -> str) (s : str) : str :=
  sub_loop (length s) r repl s.

Definition only (c : ascii) : ascii -> bool := Ascii.eqb c.
Definition dot (c : ascii) : bool := negb (Ascii.eqb c LF).

Definition BACKTICK : ascii := ascii_of_N 96.
Definition STAR : ascii := ascii_of_N 42.
Definition UNDERSCORE : ascii := ascii_of_N 95.

(** The characters of the class [[*_`]]. *)
Definition is_marker (c : ascii) : bool :=
  Ascii.eqb c STAR || Ascii.eqb c UNDERSCORE || Ascii.eqb c BACKTICK.

(** [`+(.+?)`+] *)
Definition re_code : regex :=
  [Item (only BACKTICK) GreedyPlus false; Item dot LazyPlus true;
   Item (only BACKTICK) GreedyPlus false].

(** [dd(.+?)dd] for a marker [d]: [\*\*(.+?)\*\*] and [__(.+?)__]. *)
Definition re_double (d : ascii) : regex :=
  [Item (only d) Once false; Item (only d) Once false; Item dot LazyPlus true;
   Item (only d) Once false; Item (only d) Once false].

(** [d(.+?)d]: [\*(.+?)\*] and [_(.+?)_]. *)
Definition re_single (d : ascii) : regex :=
  [Item (only d) Once false; Item dot LazyPlus true; Item (only d) Once false].

(** [[*_`]+] *)
Definition re_stray : regex := [Item is_marker GreedyPlus false].

(** [(\w{15})] *)
Definition re_run15 : regex := repeat (Item isword Once true) 15.

Definition group1 (g : str) : str := g.
Definition nothing (g : str) : str := [].

(** ** Sanitization and the block parser *)

Definition _sanitize_inline_markup (s : str) : str :=
  match s with
  | [] => s
  | _ =>
      let s := re_sub re_code group1 s in
      let s := re_sub (re_double STAR) group1 s in
      let s := re_sub (re_double UNDERSCORE) group1 s in
      let s := re_sub (re_single STAR) group1 s in
      let s := re_sub (re_single UNDERSCORE) group1 s in
      let s := re_sub re_stray nothing s in
      strip s
  end.


(** The values of the key ["type"]: "h1", "h2", "h3", "bullet", "p". *)
Inductive block_type : Type := T_h1 | T_h2 | T_h3 | T_bullet | T_p.

(** A block is the dictionary [{"type": ..., "text": ...}]. *)
Record block : Type := Block { type : block_type; text : str }.

(** The body of the loop of [parse_txt_structure] for one [raw_line]:
    no block for a blank line, else the block of the line. *)
Definition parse_line (raw_line : str) : list block :=
  let line := rstrip raw_line in
  match line with
  | [] => []
  | _ =>
      let stripped := lstrip line in
      if startswith stripped (lit "# ") then
        [Block T_h1 (_sanitize_inline_markup (skipn 2 stripped))]
      else if startswith stripped (lit "## ") then
        [Block T_h2 (_sanitize_inline_markup (skipn 3 stripped))]
      else if startswith stripped (lit "### ") then
        [Block T_h3 (_sanitize_inline_markup (skipn 4 stripped))]
      else if startswith stripped (lit "- ") then
        [Block T_bullet (_sanitize_inline_markup (skipn 2 stripped))]
      else
        [Block T_p (_sanitize_inline_markup stripped)]
  end.

(** [text] is [None] for Python's [None]. *)
Definition parse_txt_structure (text : option str) : list block :=
  match text with
  | None => []
  | Some text => flat_map parse_line (splitlines text)
  end.

(** ** Palettes *)

Definition rgb : Type := (N * N * N)%type.

Record palette : Type := Palette {
  bg : rgb;
  accent : rgb;
  accent2 : rgb;
  text_main : rgb;
  text_soft : rgb
}.

(** The dictionary [PALETTES]; its keys are in insertion order. *)
Definition PALETTES : list (str * palette) :=
  [ (lit "deep_sapphire",
     Palette (6, 14, 38) (82, 145, 255) (255, 188, 66) (235, 244, 255)
             (178, 196, 220));
    (lit "slate_modern",
     Palette (20, 22, 25) (255, 131, 46) (0, 165, 197) (240, 244, 248)
             (168, 176, 188));
    (lit "minimal_white",
     Palette (250, 250, 250) (0, 135, 102) (0, 90, 140) (20, 28, 34)
             (108, 118, 128)) ]%N.

Definition str_eqb (a b : str) : bool :=
  if list_eq_dec Ascii.ascii_dec a b then true else false.

(** [d[k]] *)
Fixpoint dict_get {V : Type} (d : list (str * V)) (k : str) : result V :=
  match d with
  | [] => Raise KeyError
  | (k', v) :: d' => if str_eqb k' k then Ok v else dict_get d' k
  end.

(** [l[i]] for [0 <= i] *)
Definition list_get {A : Type} (l : list A) (i : N) : result A :=
  match nth_error l (N.to_nat i) with
  | Some a => Ok a
  | None => Raise IndexError
  end.

(** *** SHA-256 ([hashlib.sha256]) *)

Module SHA256.

Local Open Scope N_scope.

Definition wrap32 (x : N) : N := x mod 2 ^ 32.
Definition add32 (x y : N) : N := wrap32 (x + y).
Definition rotr (n x : N) : N :=
  N.lor (N.shiftr x n) (wrap32 (N.shiftl x (32 - n))).
Definition not32 (x : N) : N := 2 ^ 32 - 1 - x.

Definition Ch (x y z : N) : N := N.lxor (N.land x y) (N.land (not32 x) z).
Definition Maj (x y z : N) : N :=
  N.lxor (N.lxor (N.land x y) (N.land x z)) (N.land y z).
Definition Sigma0 (x : N) : N := N.lxor (N.lxor (rotr 2 x) (rotr 13 x)) (rotr 22 x).
Definition Sigma1 (x : N) : N := N.lxor (N.lxor (rotr 6 x) (rotr 11 x)) (rotr 25 x).
Definition sigma0 (x : N) : N := N.lxor (N.lxor (rotr 7 x) (rotr 18 x)) (N.shiftr x 3).
Definition sigma1 (x : N) : N := N.lxor (N.lxor (rotr 17 x) (rotr 19 x)) (N.shiftr x 10).

(** The round constants and the initial state are the first 32 bits of
    the fractional parts of the cube roots of the first 64 primes and of
    the square roots of the first 8. *)
Definition primes : list N :=
  [ 2; 3; 5; 7; 11; 13; 17; 19; 23; 29; 31; 37; 41; 43; 47; 53; 59; 61; 67;
    71; 73; 79; 83; 89; 97; 101; 103; 107; 109; 113; 127; 131; 137; 139; 149;
    151; 157; 163; 167; 173; 179; 181; 191; 193; 197; 199; 211; 223; 227;
    229; 233; 239; 241; 251; 257; 263; 269; 271; 277; 281; 283; 293; 307;
    311 ].

(** The integer cube root of [n], found bit by bit below [2 ^ bits]. *)
Fixpoint root3 (bits : nat) (n r : N) : N :=
  match bits with
  | O => r
  | S k =>
      let c := r + 2 ^ N.of_nat k in
      root3 k n (if c * c * c <=? n then c else r)
  end.

Definition frac_root3 (q : N) : N := wrap32 (root3 36 (q * 2 ^ 96) 0).
Definition frac_root2 (q : N) : N := wrap32 (N.sqrt (q * 2 ^ 64)).

Definition K : list N := map frac_root3 primes.

(** The hash state: eight 32-bit words. *)
Definition state : Type := (N * N * N * N * N * N * N * N)%type.

Definition init : state :=
  (frac_root2 2, frac_root2 3, frac_root2 5, frac_root2 7,
   frac_root2 11, frac_root2 13, frac_root2 17, frac_root2 19).

(** The padded message: the bytes, 0x80, zeros up to 56 modulo 64, and
    the bit length on eight bytes, most significant first. *)
Definition be_bytes (n : nat) (x : N) : list N :=
  map (fun i => (N.shiftr x (8 * N.of_nat i)) mod 256) (rev (seq 0 n)).

Definition pad (msg : list N) : list N :=
  let len := N.of_nat (List.length msg) in
  let zeros := N.to_nat ((64 + 55 - len mod 64) mod 64) in
  msg ++ [128] ++ repeat 0 zeros ++ be_bytes 8 (8 * len).

Fixpoint be_word (bs : list N) (acc : N) : N :=
  match bs with
  | [] => acc
  | b :: bs' => be_word bs' (acc * 256 + b)
  end.

(** The big-endian 32-bit words of a list of bytes. *)
Fixpoint words (fuel : nat) (bs : list N) : list N :=
  match fuel, bs with
  | S n, _ :: _ => be_word (firstn 4 bs) 0 :: words n (skipn 4 bs)
  | _, _ => []
  end.

(** The message schedule, most recent word first: [w] holds
    [W(t-1), W(t-2), ...]. *)
Fixpoint schedule (n : nat) (w : list N) : list N :=
  match n with
  | O => w
  | S n' =>
      let wt := add32 (add32 (sigma1 (nth 1 w 0)) (nth 6 w 0))
                      (add32 (sigma0 (nth 14 w 0)) (nth 15 w 0)) in
      schedule n' (wt :: w)
  end.

Definition round (st : state) (kw : N * N) : state :=
  let '(a, b, c, d, e, f, g, h) := st in
  let t1 := add32 (add32 (add32 h (Sigma1 e)) (add32 (Ch e f g) (fst kw))) (snd kw) in
  let t2 := add32 (Sigma0 a) (Maj a b c) in
  (add32 t1 t2, a, b, c, add32 d t1, e, f, g).

Definition compress (st : state) (chunk : list N) : state :=
  let w := rev (schedule 48 (rev (words 16 chunk))) in
  let '(a, b, c, d, e, f, g, h) := fold_left round (combine K w) st in
  let '(a0, b0, c0, d0, e0, f0, g0, h0) := st in
  (add32 a0 a, add32 b0 b, add32 c0 c, add32 d0 d,
   add32 e0 e, add32 f0 f, add32 g0 g, add32 h0 h).

Fixpoint chunks (fuel : nat) (st : state) (bs : list N) : state :=
  match fuel, bs with
  | S n, _ :: _ => chunks n (compress st (firstn 64 bs)) (skipn 64 bs)
  | _, _ => st
  end.

Definition digest (msg : list N) : state :=
  let m := pad msg in chunks (List.length m) init m.

End SHA256.

(** [key.encode()]: UTF-8; a character from U+0080 on takes two bytes. *)
Definition encode (s : str) : list N :=
  flat_map (fun c => let n := code c in
                     if (n <? 128)%N then [n]
                     else [192 + n / 64; 128 + n mod 64]%N) s.

Definition hexdigit (n : N) : ascii :=
  if (n <? 10)%N then ascii_of_N (48 + n) else ascii_of_N (87 + n).

(** [n] on [k] lower-case hexadecimal digits: [f"{n:0kx}"] for [n < 16^k]. *)
Definition hex (k : nat) (n : N) : str :=
  map (fun i => hexdigit ((N.shiftr n (4 * N.of_nat i)) mod 16)) (rev (seq 0 k)).

Definition hexdigest (st : SHA256.state) : str :=
  let '(a, b, c, d, e, f, g, h) := st in
  hex 8 a ++ hex 8 b ++ hex 8 c ++ hex 8 d ++ hex 8 e ++ hex 8 f ++ hex 8 g ++ hex 8 h.

Definition hexvalue (c : ascii) : option N :=
  let n := code c in
  if (48 <=? n)%N && (n <=? 57)%N then Some (n - 48)%N
  else if (97 <=? n)%N && (n <=? 102)%N then Some (n - 87)%N
  else if (65 <=? n)%N && (n <=? 70)%N then Some (n - 55)%N
  else None.

Fixpoint int16_from (acc : N) (s : str) : result N :=
  match s with
  | [] => Ok acc
  | c :: s' =>
      match hexvalue c with
      | Some v => int16_from (acc * 16 + v)%N s'
      | None => Raise ValueError
      end
  end.

(** [int(s, 16)] on a string of hexadecimal digits; the empty string and
    any other character raise [ValueError]. *)
Definition int16 (s : str) : result N :=
  match s with
  | [] => Raise ValueError
  | _ => int16_from 0%N s
  end.

Definition pick_palette (key : str) : result palette :=
  let h := hexdigest (SHA256.digest (encode key)) in
  let keys := map fst PALETTES in
  let* n := int16 (firstn 8 h) in
  let* k := list_get keys (n mod N.of_nat (List.length keys))%N in
  dict_get PALETTES k.


(** ** Greedy line wrapping *)

Definition len (s : str) : Z := Z.of_nat (List.length s).

(** The loop of [_lines_for_paragraph] over [words[1:]]. *)
Fixpoint lines_loop (chars_per_line : Z) (ws : list str) (lines : list str)
    (cur : str) : list str :=
  match ws with
  | [] => lines ++ [cur]
  | w :: ws' =>
      if (len cur + 1 + len w <=? chars_per_line)%Z
      then lines_loop chars_per_line ws' lines (cur ++ [SPACE] ++ w)
      else lines_loop chars_per_line ws' (lines ++ [cur]) w
  end.

(** [words[0]] raises [IndexError] when the text is blank and not empty. *)
Definition _lines_for_paragraph (text : str) (chars_per_line : Z)
    : result (list str) :=
  match text with
  | [] => Ok [[]]
  | _ =>
      let words := split text in
      let* cur := list_get words 0%N in
      Ok (lines_loop chars_per_line (skipn 1 words) [] cur)
  end.

(** The wrapping loop written out in [txt_to_pptx], for a budget [cpl]
    ([CHAR_PER_LINE] in the source): the pair [(lines, cur)] after the
    words [ws]. *)
Fixpoint pptx_wrap_loop (cpl : Z) (ws : list str) (lines : list str) (cur : str)
    : list str * str :=
  match ws with
  | [] => (lines, cur)
  | w :: ws' =>
      if (len (strip (cur ++ [SPACE] ++ w)) <=? cpl)%Z
      then pptx_wrap_loop cpl ws' lines (strip (cur ++ [SPACE] ++ w))
      else pptx_wrap_loop cpl ws' (lines ++ [cur]) w
  end.

Definition pptx_wrap (cpl : Z) (tx : str) : list str :=
  let '(lines, cur) := pptx_wrap_loop cpl (split tx) [] [] in
  match cur with
  | [] => lines
  | _ => lines ++ [cur]
  end.

(** ** The fixed-page renderer ([txt_to_pdf]) *)

Definition _rgb_hex (c : rgb) : str :=
  let '(r, g, b) := c in lit "#" ++ hex 2 r ++ hex 2 g ++ hex 2 b.

Inductive pdf_style : Type := TitleX | H1X | H2X | H3X | BodyX | Bar.

(** The flowables of the story.  An item of a [ListFlowable] is
    [ListItem(Paragraph(b, styles["BodyX"]))], kept as [b]. *)
Inductive flowable : Type :=
| Paragraph (tx : str) (style : pdf_style)
| Spacer (width height : Z)
| PageBreak
| ListFlowable (items : list str).

Definition QUOTE : ascii := ascii_of_N 34.

(** The state of the loop: the story and the buffer [bullets]. *)
Record pdf_state : Type := PdfState {
  story : list flowable;
  bullets : list str
}.

Definition flush_bullets (st : pdf_state) : pdf_state :=
  match bullets st with
  | [] => st
  | bs => PdfState (story st ++ [ListFlowable bs] ++ [Spacer 1 6]) []
  end.

Definition pdf_step (st : pdf_state) (b : block) : pdf_state :=
  let tx := text b in
  match type b with
  | T_h1 =>
      let st := flush_bullets st in
      PdfState (story st ++ [PageBreak] ++ [Paragraph tx H1X]) (bullets st)
  | T_h2 =>
      let st := flush_bullets st in
      PdfState (story st ++ [Paragraph tx H2X]) (bullets st)
  | T_h3 =>
      let st := flush_bullets st in
      PdfState (story st ++ [Paragraph tx H3X]) (bullets st)
  | T_bullet => PdfState (story st) (bullets st ++ [tx])
  | T_p =>
      let st := flush_bullets st in
      PdfState (story st ++ [Paragraph tx BodyX] ++ [Spacer 1 4]) (bullets st)
  end.

Definition pdf_head (pal : palette) (title : str) : list flowable :=
  [ Paragraph title TitleX; Spacer 1 8;
    Paragraph (lit "<para backColor=" ++ [QUOTE] ++ _rgb_hex (accent pal)
               ++ [QUOTE] ++ lit "> </para>") Bar;
    Spacer 1 10 ].

(** The story the function describes, handed to [doc.build].  What the
    library does with it, from the making of each [Paragraph] on, is not
    part of this function: see [build_document] in [env]. *)
Definition txt_to_pdf (blocks : list block) (title : str)
    : result (list flowable) :=
  let* palette := pick_palette title in
  let st := fold_left pdf_step blocks (PdfState (pdf_head palette title) []) in
  Ok (story (flush_bullets st)).

(** ** The flowing-document renderer ([txt_to_docx]) *)

Inductive docx_item : Type :=
| DocxParagraph (tx : str) (style : option str)
| DocxPageBreak.

Definition docx_step (b : block) : list docx_item :=
  let tx := text b in
  match type b with
  | T_h1 => [DocxPageBreak; DocxParagraph tx (Some (lit "H1X"))]
  | T_h2 => [DocxParagraph tx (Some (lit "H2X"))]
  | T_h3 => [DocxParagraph tx (Some (lit "H3X"))]
  | T_bullet => [DocxParagraph tx (Some (lit "List Bullet"))]
  | T_p => [DocxParagraph tx (Some (lit "BodyX"))]
  end.

(** The paragraphs the function describes, handed to [doc.save]; what
    the library does with them is [build_document] in [env]. *)
Definition txt_to_docx (blocks : list block) (title : str)
    : result (list docx_item) :=
  let* palette := pick_palette title in
  Ok ([DocxParagraph title (Some (lit "TitleX")); DocxParagraph [] None]
      ++ flat_map docx_step blocks).

(** ** The slide renderer ([txt_to_pptx])

    Lengths are in hundredths of an inch, font sizes in points. *)

Record box : Type := Box { left : Z; top : Z; width : Z; height : Z }.

Record para : Type := Para {
  p_text : str;
  p_size : option Z;
  p_color : option rgb;
  p_bold : bool;
  p_name : option str
}.

(** The paragraph a text frame holds after [clear()]. *)
Definition empty_para : para := Para [] None None false None.

Inductive shape : Type :=
| Rectangle (b : box) (fill : rgb)
| TextBox (b : box) (paragraphs : list para).

(** A slide: its background, its shapes in creation order and, for the
    capacity property, the needed-line counts of the blocks whose lines
    were written on it, in order. *)
Record slide : Type := Slide {
  background : rgb;
  shapes : list shape;
  placed : list Z
}.

Definition SLIDE_WIDTH : Z := 1000.
Definition SLIDE_HEIGHT : Z := 750.

Definition TEXT_BOX_LEFT : Z := 80.
Definition TEXT_BOX_WIDTH : Z := 750.
Definition TEXT_BOX_TOP : Z := 100.
Definition TEXT_BOX_HEIGHT : Z := 500.

Definition CHAR_PER_LINE : Z := 55.
Definition FONT_PT : Z := 16.

(** [int((TEXT_BOX_HEIGHT.inches * 72) // LINE_HEIGHT_PT)] with
    [LINE_HEIGHT_PT = FONT_PT * 1.3]: the floor of 360 / 20.8, computed on
    integers as 36000 / 2080. *)
Definition MAX_LINES : Z := (TEXT_BOX_HEIGHT * 72) / (FONT_PT * 130).

(** The variables of [txt_to_pptx] that the loop changes: the slides
    before the active one, the active [slide], the index in its shapes of
    the text box whose frame is [tf], and [used_lines]. *)
Record pptx_state : Type := PptxState {
  finished : list slide;
  active : slide;
  tf : nat;
  used_lines : Z
}.

Definition cover_slide (pal : palette) (title : str) : slide :=
  Slide (bg pal)
    [ Rectangle (Box 0 0 SLIDE_WIDTH 50) (accent pal);
      TextBox (Box 80 130 900 200)
        [Para title (Some 40%Z) (Some (text_main pal)) true None] ]
    [].

Definition content_slide (pal : palette) : slide :=
  Slide (bg pal)
    [ Rectangle (Box 0 0 35 SLIDE_HEIGHT) (accent pal);
      TextBox (Box TEXT_BOX_LEFT TEXT_BOX_TOP TEXT_BOX_WIDTH TEXT_BOX_HEIGHT)
        [empty_para] ]
    [].

(** [slide, tf = new_slide()] *)
Definition new_slide (pal : palette) (st : pptx_state) : pptx_state :=
  PptxState (finished st ++ [active st]) (content_slide pal) 1 (used_lines st).

Definition ensure_space (pal : palette) (lines_needed : Z) (st : pptx_state)
    : pptx_state :=
  if (lines_needed + used_lines st >? MAX_LINES)%Z
  then PptxState (finished st ++ [active st]) (content_slide pal) 1 0
  else st.

(** [slide.shapes.add_textbox(...)] with the paragraphs set on its frame. *)
Definition add_textbox (b : box) (ps : list para) (sl : slide) : slide :=
  Slide (background sl) (shapes sl ++ [TextBox b ps]) (placed sl).

(** [tf.add_paragraph()] with the text and font set on it. *)
Definition add_paragraph (i : nat) (q : para) (sl : slide) : slide :=
  Slide (background sl)
    (alter (fun sh => match sh with
                      | TextBox b ps => TextBox b (ps ++ [q])
                      | Rectangle _ _ => sh
                      end) i (shapes sl))
    (placed sl).

Definition soften (tx : str) : str :=
  re_sub re_run15 (fun g => g ++ [SOFT_HYPHEN]) tx.

(** The needed-line count of a block text. *)
Definition needed_lines (tx : str) : Z :=
  Z.max 1 (Z.of_nat (List.length (pptx_wrap CHAR_PER_LINE (soften tx)))).

Definition line_para (pal : palette) (ln : str) : para :=
  Para ln (Some FONT_PT) (Some (text_soft pal)) false (Some (lit "Calibri")).

Definition pptx_step (pal : palette) (st : pptx_state) (blk : block)
    : pptx_state :=
  let tx := soften (text blk) in
  let lines := pptx_wrap CHAR_PER_LINE tx in
  let needed := Z.max 1 (Z.of_nat (List.length lines)) in
  match type blk with
  | T_h1 =>
      let st := new_slide pal st in
      let sl := add_textbox (Box 100 200 800 200)
                  [Para tx (Some 32%Z) (Some (accent pal)) true None] (active st) in
      let st := PptxState (finished st) sl (tf st) (used_lines st) in
      let st := new_slide pal st in
      PptxState (finished st) (active st) (tf st) 0
  | T_h2 =>
      let st := new_slide pal st in
      let sl := add_textbox (Box 100 100 800 100)
                  [Para tx (Some 26%Z) (Some (text_main pal)) true None] (active st) in
      let sl := add_textbox (Box TEXT_BOX_LEFT 180 TEXT_BOX_WIDTH TEXT_BOX_HEIGHT)
                  [empty_para] sl in
      PptxState (finished st) sl (List.length (shapes sl) - 1) 0
  | _ =>
      let st := ensure_space pal needed st in
      let sl := fold_left (fun sl ln => add_paragraph (tf st) (line_para pal ln) sl)
                  lines (active st) in
      let sl := Slide (background sl) (shapes sl) (placed sl ++ [needed]) in
      PptxState (finished st) sl (tf st) (used_lines st + needed)
  end.

Definition pptx_init (pal : palette) (title : str) : pptx_state :=
  PptxState [cover_slide pal title] (content_slide pal) 1 0.

Definition pptx_run (pal : palette) (title : str) (blocks : list block)
    : pptx_state :=
  fold_left (pptx_step pal) blocks (pptx_init pal title).

(** The slides of the presentation, the cover first. *)
Definition deck (st : pptx_state) : list slide := finished st ++ [active st].

(** The slides handed to [prs.save]. *)
Definition txt_to_pptx (blocks : list block) (title : str)
    : result (list slide) :=
  let* palette := pick_palette title in
  Ok (deck (pptx_run palette title blocks)).

(** ** The entry point ([file_generator]) *)

Inductive file : Type :=
| TextFile (content : str)
| PdfFile (story : list flowable)
| DocxFile (body : list docx_item)
| PptxFile (slides : list slide).

(** What the call reads from its surroundings: the settings, and what
    the code it calls outside the module does at the time of the call.
    - [generate_content prompt]: the text of the answer of the language
      model ([GenerativeModel], [generate_content], [resp.text]), or the
      exception raised on the way.
    - [makedirs path]: [os.makedirs(path, exist_ok=True)].
    - [open_for_writing path]: whether the operating system lets the file
      be created or truncated, for [open(path, "w")] and for the library
      that saves a document; [OSError] stands for its subclasses
      ([FileNotFoundError] when the directory of the path does not exist).
    - [build_document f]: what reportlab, python-docx or python-pptx does
      with the document the program describes, from the making of its
      paragraphs to the layout: reportlab's [Paragraph] raises
      [ValueError] on markup it cannot parse, python-docx on a control
      character. *)
Record env : Type := Env {
  GEMINI_API_KEY : option str;
  DEFAULT_SAVE_PATH : str;
  generate_content : str -> result str;
  makedirs : str -> result unit;
  open_for_writing : str -> result unit;
  build_document : file -> result unit
}.

(** What the call changes: the regular files, by path, and the paths
    handed to [open_file].  [os.makedirs] creates directories only. *)
Record world : Type := World {
  files : gmap str file;
  opened : list str
}.

(** Writing [f] at [path]: nothing is written when the file cannot be
    opened. *)
Definition write_file (e : env) (path : str) (f : file) (w : world)
    : result world :=
  let* _ := open_for_writing e path in
  Ok (World (<[path := f]> (files w)) (opened w)).

Definition open_file (path : str) (w : world) : world :=
  World (files w) (opened w ++ [path]).

Definition _ensure_genai (e : env) : result unit :=
  match GEMINI_API_KEY e with
  | None | Some [] => Raise (RuntimeError (lit "Gemini API key missing."))
  | Some _ => Ok tt
  end.

(** [os.path.join(a, b)] of [posixpath]. *)
Definition path_join (a b : str) : str :=
  if startswith b (lit "/") then b
  else match rev a with
       | [] => b
       | c :: _ => if Ascii.eqb c "/"%char then a ++ b else a ++ lit "/" ++ b
       end.

Definition prompt_head : str := lit "
Generate detailed, well-structured professional content for the topic.

Use the following only for structure (these symbol markers must NOT appear in final files):
# Heading 1
## Heading 2
### Heading 3
- Bullet point
Plain paragraph text

Topic: ".

Definition prompt_tail : str := lit "
Please produce several sections with headings, subheadings, and bullets so files are rich and detailed.
".

(** The document the program describes, once the library has made it. *)
Definition built (e : env) (f : file) : result file :=
  let* _ := build_document e f in Ok f.

(** The renderer of a file type, applied to the blocks and the topic:
    the extension and the document, or the exception of the library. *)
Definition render (e : env) (filetype : str) (blocks : list block)
    (topic : str) : option (str * result file) :=
  if str_eqb filetype (lit "pdf") then
    Some (lit ".pdf",
          let* s := txt_to_pdf blocks topic in built e (PdfFile s))
  else if str_eqb filetype (lit "docx") then
    Some (lit ".docx",
          let* d := txt_to_docx blocks topic in built e (DocxFile d))
  else if str_eqb filetype (lit "pptx") then
    Some (lit ".pptx",
          let* d := txt_to_pptx blocks topic in built e (PptxFile d))
  else None.

(** The path of the text file: the hint or, without one, the default
    path, whose directory is made first. *)
Definition resolve_save_path (e : env) (topic : str) (save_path : option str)
    : result str :=
  match save_path with
  | None | Some [] =>
      let* _ := makedirs e (DEFAULT_SAVE_PATH e) in
      Ok (path_join (DEFAULT_SAVE_PATH e)
                    (replace (lit " ") (lit "_") topic ++ lit ".txt"))
  | Some q => Ok q
  end.

(** [file_generator(topic, filetype, save_path)]: the value returned or
    the exception raised, and the world after the call. *)
Definition file_generator (e : env) (w : world) (topic filetype : str)
    (save_path : option str) : result str * world :=
  match _ensure_genai e with
  | Raise x => (Raise x, w)
  | Ok _ =>
      match generate_content e (prompt_head ++ topic ++ prompt_tail) with
      | Raise x => (Raise x, w)
      | Ok answer =>
          let raw := strip answer in
          let blocks := parse_txt_structure (Some raw) in
          match resolve_save_path e topic save_path with
          | Raise x => (Raise x, w)
          | Ok save_path =>
              match write_file e save_path (TextFile raw) w with
              | Raise x => (Raise x, w)
              | Ok w1 =>
                  match render e filetype blocks topic with
                  | None => (Ok save_path, w1)
                  | Some (ext, r) =>
                      let out := replace (lit ".txt") ext save_path in
                      match r with
                      | Raise x => (Raise x, w1)
                      | Ok f =>
                          match write_file e out f w1 with
                          | Raise x => (Raise x, w1)
                          | Ok w2 => (Ok out, open_file out w2)
                          end
                      end
                  end
              end
          end
      end
  end.

(** ** The tool dispatcher ([handle_tool_call] of [modules/llm_processor.py])

    The arguments of a call are a mapping from names to strings.  The
    three other tools are taken as they come: functions of their
    arguments and of the world. *)

Record tools : Type := Tools {
  generate_os_command : str -> world -> result str * world;
  send_email : str -> str -> option str -> world -> result str * world;
  build_project_from_text :
    str -> option str -> option str -> world -> result str * world
}.

Definition handle_tool_call (e : env) (t : tools) (w : world) (name : str)
    (args : gmap str str) : result str * world :=
  if str_eqb name (lit "generate_os_command") then
    match args !! lit "user_text" with
    | None => (Raise KeyError, w)
    | Some user_text => generate_os_command t user_text w
    end
  else if str_eqb name (lit "file_generator") then
    match args !! lit "topic" with
    | None => (Raise KeyError, w)
    | Some topic =>
        file_generator e w topic
          (default (lit "txt") (args !! lit "filetype"))
          (args !! lit "save_path")
    end
  else if str_eqb name (lit "send_email") then
    match args !! lit "receiver_email" with
    | None => (Raise KeyError, w)
    | Some receiver_email =>
        send_email t receiver_email
          (default (lit "none") (args !! lit "subject"))
          (args !! lit "topic") w
    end
  else if str_eqb name (lit "code_builder") then
    match args !! lit "user_text" with
    | None => (Raise KeyError, w)
    | Some user_text =>
        build_project_from_text t user_text (args !! lit "base_path")
          (args !! lit "run_command_override") w
    end
  else (Ok (lit "Tool not implemented"), w).

(** ** Notions used by the statements *)

(** The text without the characters [*], [_] and [`]. *)
Definition keep (s : str) : str := List.filter (fun c => negb (is_marker c)) s.

(** No whitespace at either end. *)
Definition no_padding (s : str) : Prop :=
  match s with [] => True | c :: _ => isspace c = false end /\
  match rev s with [] => True | c :: _ => isspace c = false end.

(** The items outside group 1 match marker characters only. *)
Definition marker_delimited (r : regex) : Prop :=
  Forall (fun it => in_group it = true \/
                    forall c, cls it c = true -> is_marker c = true) r.

(** A word: not empty and without whitespace. *)
Definition is_word (w : str) : Prop :=
  w <> [] /\ Forall (fun c => isspace c = false) w.

(** A line is within the budget, or it is one word of the text that is
    longer than the budget. *)
Definition fits (budget : Z) (tx : str) (l : str) : Prop :=
  (len l <= budget)%Z \/ (In l (split tx) /\ (budget < len l)%Z).

(** A line is within the budget or is one word of the text. *)
Definition within (budget : Z) (tx : str) (l : str) : Prop :=
  (len l <= budget)%Z \/ In l (split tx).

(** A block sequence cut into its maximal runs of bullet texts and its
    other blocks. *)
Inductive segment : Type :=
| Run (items : list str)
| Other (b : block).

(** [run] put in front of the segments: it joins a run that starts them. *)
Definition prepend (run : list str) (segs : list segment) : list segment :=
  match run, segs with
  | [], _ => segs
  | _, Run items :: segs' => Run (run ++ items) :: segs'
  | _, _ => Run run :: segs
  end.

Definition segment_cons (b : block) (segs : list segment) : list segment :=
  match type b with
  | T_bullet => prepend [text b] segs
  | _ => Other b :: segs
  end.

Definition segments (blocks : list block) : list segment :=
  fold_right segment_cons [] blocks.

(** The blocks of a list of segments. *)
Definition segment_blocks (sg : segment) : list block :=
  match sg with
  | Run items => map (Block T_bullet) items
  | Other b => [b]
  end.

(** The runs are maximal: none is empty, none follows another, and the
    other blocks are not bullets. *)
Fixpoint maximal_runs (segs : list segment) : Prop :=
  match segs with
  | [] => True
  | Run items :: segs' =>
      items <> [] /\
      match segs' with Run _ :: _ => False | _ => True end /\
      maximal_runs segs'
  | Other b :: segs' => type b <> T_bullet /\ maximal_runs segs'
  end.

(** What the fixed-page renderer emits for a segment: one grouped list
    for a run, the styled paragraph of another block. *)
Definition emit (sg : segment) : list flowable :=
  match sg with
  | Run items => [ListFlowable items; Spacer 1 6]
  | Other b =>
      match type b with
      | T_h1 => [PageBreak; Paragraph (text b) H1X]
      | T_h2 => [Paragraph (text b) H2X]
      | T_h3 => [Paragraph (text b) H3X]
      | _ => [Paragraph (text b) BodyX; Spacer 1 4]
      end
  end.

(** The sum of the needed-line counts of the blocks placed on a slide. *)
Definition load (sl : slide) : Z := fold_right Z.add 0%Z (placed sl).



(** A slide is within the capacity, or it holds one block only. *)
Definition within_capacity (sl : slide) : Prop :=
  (load sl <= MAX_LINES)%Z \/ exists n, placed sl = [n].

(** A paragraph of 500 words on one line. *)
Definition five_hundred_words : str := concat (repeat (lit "word ") 500).

(** [" ".join(l)] *)
Fixpoint join_space (l : list str) : str :=
  match l with
  | [] => []
  | a :: l' =>
      match l' with
      | [] => a
      | _ :: _ => a ++ SPACE :: join_space l'
      end
  end.

Definition nonempty (s : str) : bool :=
  match s with [] => false | _ :: _ => true end.

(** The text without its soft hyphens. *)
Definition without_soft_hyphen (s : str) : str :=
  List.filter (fun c => negb (Ascii.eqb c SOFT_HYPHEN)) s.

(** The texts a story draws, in order: the paragraphs and the items of
    the lists. *)
Definition story_texts (fl : list flowable) : list str :=
  flat_map (fun f => match f with
                     | Paragraph tx _ => [tx]
                     | ListFlowable items => items
                     | Spacer _ _ | PageBreak => []
                     end) fl.

Definition is_page_break (f : flowable) : bool :=
  match f with PageBreak => true | _ => false end.

Definition docx_texts (d : list docx_item) : list str :=
  flat_map (fun i => match i with
                     | DocxParagraph tx _ => [tx]
                     | DocxPageBreak => []
                     end) d.

Definition is_docx_page_break (i : docx_item) : bool :=
  match i with DocxPageBreak => true | DocxParagraph _ _ => false end.

Definition is_h1 (b : block) : bool :=
  match type b with T_h1 => true | _ => false end.


(** The paragraphs the renderer wrote: those with a font size; the
    paragraph a cleared frame holds has none. *)
Definition has_font (q : para) : bool :=
  match p_size q with Some _ => true | None => false end.

(** The texts written on a slide, in the order of its shapes. *)
Definition slide_texts (sl : slide) : list str :=
  flat_map (fun sh => match sh with
                      | TextBox _ ps => map p_text (List.filter has_font ps)
                      | Rectangle _ _ => []
                      end) (shapes sl).

(** What the slide renderer writes for a block: the softened text of a
    heading of level 1 or 2, the wrapped lines of any other block. *)
Definition block_lines (b : block) : list str :=
  match type b with
  | T_h1 | T_h2 => [soften (text b)]
  | _ => pptx_wrap CHAR_PER_LINE (soften (text b))
  end.

(** The frame [tf] is the one of the last shape of the active slide. *)
Definition tf_last (st : pptx_state) : Prop :=
  exists pre bx ps,
    shapes (active st) = pre ++ [TextBox bx ps] /\ tf st = List.length pre.

(** [old in s] *)
Fixpoint contains (old s : str) : bool :=
  startswith s old ||
  match s with
  | [] => false
  | _ :: s' => contains old s'
  end.

(** The path [file_generator] writes the generated text to. *)
Definition text_path (e : env) (topic : str) (save_path : option str) : str :=
  match save_path with
  | None | Some [] =>
      path_join (DEFAULT_SAVE_PATH e)
                (replace (lit " ") (lit "_") topic ++ lit ".txt")
  | Some q => q
  end.

(** The prompt [file_generator] makes for a topic. *)
Definition prompt (topic : str) : str := prompt_head ++ topic ++ prompt_tail.

(** The directory of the text file can be used: without a hint,
    [os.makedirs] returns. *)
Definition prepared (e : env) (save_path : option str) : Prop :=
  match save_path with
  | None | Some [] => makedirs e (DEFAULT_SAVE_PATH e) = Ok tt
  | Some _ => True
  end.

(** [f] is the document the renderer of the file type makes of the
    blocks: the story of [txt_to_pdf], the paragraphs of [txt_to_docx]
    or the slides of [txt_to_pptx]. *)
Definition rendered (filetype : str) (blocks : list block) (topic : str)
    (f : file) : Prop :=
  (filetype = lit "pdf" /\
   exists st, txt_to_pdf blocks topic = Ok st /\ f = PdfFile st) \/
  (filetype = lit "docx" /\
   exists d, txt_to_docx blocks topic = Ok d /\ f = DocxFile d) \/
  (filetype = lit "pptx" /\
   exists sl, txt_to_pptx blocks topic = Ok sl /\ f = PptxFile sl).

(** The block prefix of each type; a paragraph has none. *)
Definition block_prefix (t : block_type) : str :=
  match t with
  | T_h1 => lit "# "
  | T_h2 => lit "## "
  | T_h3 => lit "### "
  | T_bullet => lit "- "
  | T_p => []
  end.

(** A line that starts with none of the four prefixes. *)
Definition no_block_prefix (stripped : str) : Prop :=
  startswith stripped (lit "# ") = false /\
  startswith stripped (lit "## ") = false /\
  startswith stripped (lit "### ") = false /\
  startswith stripped (lit "- ") = false.

Definition key_set (e : env) : Prop :=
  exists key, GEMINI_API_KEY e = Some key /\ key <> [].

(** The line [l] starts with the word [w]. *)
Definition starts_with_word (w l : str) : Prop :=
  l = w \/ exists r, l = w ++ SPACE :: r.

(** The next line [b] had to be started: its first word, joined to the
    line [a] by a space, would pass the budget. *)
Definition had_to_break (cpl : Z) (a b : str) : Prop :=
  exists w, is_word w /\ starts_with_word w b /\ (cpl < len a + 1 + len w)%Z.

(** Every line but the first had to be started. *)
Fixpoint greedy (cpl : Z) (lines : list str) : Prop :=
  match lines with
  | [] => True
  | a :: rest =>
      match rest with
      | [] => True
      | b :: _ => had_to_break cpl a b /\ greedy cpl rest
      end
  end.

(** * Properties *)

(** ** Stripping *)

Section Dropwhile.

Variable q : ascii -> bool.

Lemma dropwhile_split (s : str) :
  exists pre, s = pre ++ dropwhile q s /\ Forall (fun c => q c = true) pre.
Proof.
  induction s as [|c s [pre [E F]]]; simpl.
  - exists []. split; [reflexivity | constructor].
  - destruct (q c) eqn:Q.
    + exists (c :: pre). split; [simpl; congruence | constructor; assumption].
    + exists []. split; [reflexivity | constructor].
Qed.

Lemma dropwhile_head (s : str) (c : ascii) (r : str) :
  dropwhile q s = c :: r -> q c = false.
Proof.
  induction s as [|a s IH]; simpl; [discriminate|].
  destruct (q a) eqn:Q; [exact IH|].
  intros E. injection E as -> _. exact Q.
Qed.

Lemma dropwhile_fixed (s : str) :
  match s with [] => True | c :: _ => q c = false end -> dropwhile q s = s.
Proof. destruct s as [|c s]; simpl; [reflexivity|]. intros ->. reflexivity. Qed.

Lemma dropwhile_all (s : str) :
  Forall (fun c => q c = true) s -> dropwhile q s = [].
Proof. induction 1 as [|c s Q _ IH]; simpl; [|rewrite Q]; auto. Qed.

End Dropwhile.

Lemma strip_split (s : str) :
  exists pre post, s = pre ++ strip s ++ post /\
    Forall (fun c => isspace c = true) pre /\
    Forall (fun c => isspace c = true) post.
Proof.
  unfold strip, rstrip, lstrip.
  destruct (dropwhile_split isspace s) as [pre [E F]].
  destruct (dropwhile_split isspace (rev (dropwhile isspace s))) as [tl [E' F']].
  exists pre, (rev tl). split; [|split].
  - rewrite <- rev_app_distr, <- E', rev_involutive. exact E.
  - exact F.
  - apply Forall_forall. intros c H. apply in_rev in H.
    revert c H. apply Forall_forall. exact F'.
Qed.

Lemma strip_no_padding (s : str) : no_padding (strip s).
Proof.
  unfold strip, rstrip, lstrip, no_padding. rewrite rev_involutive.
  set (t := dropwhile isspace s).
  destruct (dropwhile_split isspace (rev t)) as [tl [E _]].
  destruct (dropwhile isspace (rev t)) as [|c u] eqn:U; [simpl; auto|].
  split.
  - assert (T : t = rev (c :: u) ++ rev tl)
      by (rewrite <- rev_app_distr, <- E, rev_involutive; reflexivity).
    destruct (rev (c :: u)) as [|d v] eqn:R.
    + apply (f_equal (@List.length _)) in R. rewrite length_rev in R. discriminate.
    + apply (dropwhile_head isspace s d (v ++ rev tl)). exact T.
  - apply (dropwhile_head isspace (rev t) c u). exact U.
Qed.

Lemma strip_fixed (s : str) : no_padding s -> strip s = s.
Proof.
  intros [H1 H2]. unfold strip, rstrip, lstrip.
  rewrite (dropwhile_fixed isspace s H1).
  rewrite (dropwhile_fixed isspace (rev s) H2). apply rev_involutive.
Qed.

Lemma strip_idempotent (s : str) : strip (strip s) = strip s.
Proof. apply strip_fixed, strip_no_padding. Qed.

Lemma strip_empty_iff (s : str) :
  strip s = [] <-> Forall (fun c => isspace c = true) s.
Proof.
  split.
  - intros E. destruct (strip_split s) as [pre [post [S [F1 F2]]]].
    rewrite E in S. rewrite S. apply Forall_app. auto.
  - intros F. unfold strip, lstrip. rewrite dropwhile_all by exact F. reflexivity.
Qed.

Lemma strip_Forall (P : ascii -> Prop) (s : str) :
  Forall P s -> Forall P (strip s).
Proof.
  intros F. destruct (strip_split s) as [pre [post [S _]]].
  rewrite S in F. apply Forall_app in F as [_ F].
  apply Forall_app in F as [F _]. exact F.
Qed.

(** ** Regular expressions *)

Lemma plus_splits_sound (q : ascii -> bool) (s a rest : str) :
  In (a, rest) (plus_splits q s) ->
  s = a ++ rest /\ a <> [] /\ Forall (fun c => q c = true) a.
Proof.
  revert a rest. induction s as [|c s IH]; simpl; intros a rest H; [tauto|].
  destruct (q c) eqn:Q; [|destruct H].
  destruct H as [H|H].
  - injection H as <- <-. repeat split; [discriminate | repeat constructor; exact Q].
  - apply in_map_iff in H as [[a' r'] [E H]]. simpl in E. injection E as <- <-.
    destruct (IH _ _ H) as [-> [_ F]].
    repeat split; [discriminate | constructor; assumption].
Qed.

Lemma item_alts_sound (it : item) (s a rest : str) :
  In (a, rest) (item_alts it s) ->
  s = a ++ rest /\ a <> [] /\ Forall (fun c => cls it c = true) a.
Proof.
  unfold item_alts. destruct (quant it).
  - destruct s as [|c s]; [intros []|].
    destruct (cls it c) eqn:Q; [|intros []].
    intros [H|[]]. injection H as <- <-.
    repeat split; [discriminate | repeat constructor; exact Q].
  - intros H. apply in_rev in H. apply plus_splits_sound. exact H.
  - apply plus_splits_sound.
Qed.

Lemma re_match_cons (it : item) (r : regex) (s g rest : str) :
  In (g, rest) (re_match (it :: r) s) ->
  exists a mid g', In (a, mid) (item_alts it s) /\ In (g', rest) (re_match r mid) /\
    g = if in_group it then a ++ g' else g'.
Proof.
  simpl. intros H. apply in_flat_map in H as [[a mid] [H1 H2]].
  apply in_map_iff in H2 as [[g' rest'] [E H2]]. simpl in *.
  injection E as <- <-. exists a, mid, g'. auto.
Qed.

(** A match of a non-empty pattern takes at least one character. *)
Lemma re_match_shorter (r : regex) (s g rest : str) :
  In (g, rest) (re_match r s) ->
  List.length rest <= List.length s /\ (r <> [] -> List.length rest < List.length s).
Proof.
  revert s g. induction r as [|it r IH]; intros s g H.
  - destruct H as [H|[]]. injection H as _ <-. split; [lia | congruence].
  - apply re_match_cons in H as [a [mid [g' [H1 [H2 _]]]]].
    apply item_alts_sound in H1 as [-> [N _]].
    apply IH in H2 as [L _]. rewrite length_app.
    destruct a; [congruence | simpl; lia].
Qed.

(** The fuel [re_sub] gives to the scan is enough: more changes nothing. *)
Lemma sub_loop_fuel (r : regex) (repl : str -> str) (n m : nat) (s : str) :
  r <> [] -> List.length s <= n -> List.length s <= m ->
  sub_loop n r repl s = sub_loop m r repl s.
Proof.
  intros R. revert m s. induction n as [|n IH]; intros m s Hn Hm.
  - destruct s; [|simpl in Hn; lia]. destruct m; reflexivity.
  - destruct m as [|m]; [destruct s; [reflexivity | simpl in Hm; lia]|].
    destruct s as [|c s]; [reflexivity|]. cbn [sub_loop].
    destruct (re_match r (c :: s)) as [|[g rest] l] eqn:E.
    + f_equal. apply IH; simpl in *; lia.
    + f_equal. assert (H : In (g, rest) (re_match r (c :: s)))
        by (rewrite E; left; reflexivity).
      apply re_match_shorter in H as [_ H]. specialize (H R).
      apply IH; simpl in *; lia.
Qed.

Lemma keep_app (a b : str) : keep (a ++ b) = keep a ++ keep b.
Proof. apply filter_app. Qed.

Lemma keep_markers (a : str) :
  Forall (fun c => is_marker c = true) a -> keep a = [].
Proof.
  induction 1 as [|c a M _ IH]; [reflexivity|]. unfold keep in *. simpl.
  rewrite M. exact IH.
Qed.

Lemma keep_fixed (a : str) :
  Forall (fun c => is_marker c = false) a -> keep a = a.
Proof.
  induction 1 as [|c a M _ IH]; [reflexivity|]. unfold keep in *. simpl.
  rewrite M. simpl. congruence.
Qed.

Lemma keep_no_marker (s : str) : Forall (fun c => is_marker c = false) (keep s).
Proof.
  apply Forall_forall. intros c H. apply filter_In in H as [_ H].
  destruct (is_marker c); [discriminate | reflexivity].
Qed.

(** A match of a marker-delimited pattern drops marker characters only. *)
Lemma re_match_keep (r : regex) (s g rest : str) :
  marker_delimited r -> In (g, rest) (re_match r s) ->
  keep s = keep g ++ keep rest.
Proof.
  intros D. revert s g. induction D as [|it r Hit D IH]; intros s g H.
  - destruct H as [H|[]]. injection H as <- <-. reflexivity.
  - apply re_match_cons in H as [a [mid [g' [H1 [H2 ->]]]]].
    apply item_alts_sound in H1 as [-> [_ F]].
    apply IH in H2. rewrite keep_app, H2.
    destruct (in_group it) eqn:G.
    + rewrite keep_app, app_assoc. reflexivity.
    + destruct Hit as [Hit|Hit]; [congruence|].
      rewrite (keep_markers a); [reflexivity|].
      eapply Forall_impl; [|exact F]. exact Hit.
Qed.

Lemma sub_loop_keep (r : regex) (fuel : nat) (s : str) :
  marker_delimited r -> keep (sub_loop fuel r group1 s) = keep s.
Proof.
  intros D. revert s. induction fuel as [|n IH]; intros s; [reflexivity|].
  destruct s as [|c s]; [reflexivity|]. cbn [sub_loop].
  destruct (re_match r (c :: s)) as [|[g rest] l] eqn:E.
  - change (c :: sub_loop n r group1 s) with ([c] ++ sub_loop n r group1 s).
    change (c :: s) with ([c] ++ s). rewrite !keep_app, IH. reflexivity.
  - assert (H : In (g, rest) (re_match r (c :: s)))
      by (rewrite E; left; reflexivity).
    apply (re_match_keep r _ _ _ D) in H. rewrite H.
    unfold group1. rewrite keep_app, IH. reflexivity.
Qed.

Lemma re_sub_keep (r : regex) (s : str) :
  marker_delimited r -> keep (re_sub r group1 s) = keep s.
Proof. apply sub_loop_keep. Qed.

Lemma item_alts_nonempty (it : item) (c : ascii) (s : str) :
  cls it c = true -> item_alts it (c :: s) <> [].
Proof.
  intros Q. unfold item_alts. destruct (quant it); simpl; rewrite Q.
  - discriminate.
  - intros E. apply app_eq_nil in E as [_ E]. discriminate.
  - discriminate.
Qed.

Lemma re_match_one_nonempty (it : item) (c : ascii) (s : str) :
  cls it c = true -> re_match [it] (c :: s) <> [].
Proof.
  intros Q E. pose proof (item_alts_nonempty it c s Q) as N.
  destruct (item_alts it (c :: s)) as [|[a mid] l] eqn:A; [congruence|].
  simpl in E. rewrite A in E. simpl in E. discriminate.
Qed.

(** Deleting the runs of marker characters leaves the other characters. *)
Lemma sub_loop_stray (fuel : nat) (s : str) :
  List.length s <= fuel -> sub_loop fuel re_stray nothing s = keep s.
Proof.
  revert s. induction fuel as [|n IH]; intros s L.
  - destruct s; [reflexivity | simpl in L; lia].
  - destruct s as [|c s]; [reflexivity|]. cbn [sub_loop].
    destruct (re_match re_stray (c :: s)) as [|[g rest] l] eqn:E.
    + destruct (is_marker c) eqn:M.
      * exfalso. apply (re_match_one_nonempty (Item is_marker GreedyPlus false)
                          c s M). exact E.
      * rewrite IH by (simpl in L; lia). unfold keep. simpl. rewrite M.
        reflexivity.
    + assert (H : In (g, rest) (re_match re_stray (c :: s)))
        by (rewrite E; left; reflexivity).
      pose proof (re_match_shorter _ _ _ _ H) as [_ Sh].
      apply re_match_cons in H as [a [mid [g' [H1 [H2 _]]]]].
      destruct H2 as [H2|[]]. injection H2 as _ <-.
      apply item_alts_sound in H1 as [S [_ F]]. rewrite S.
      rewrite keep_app, (keep_markers a F). unfold nothing. simpl.
      apply IH. specialize (Sh ltac:(discriminate)). simpl in *. lia.
Qed.

Lemma marker_delimited_code : marker_delimited re_code.
Proof.
  unfold marker_delimited, re_code.
  repeat apply Forall_cons; try apply Forall_nil; cbn [in_group cls];
    first [ left; reflexivity
          | right; intros c H; apply Ascii.eqb_eq in H; subst; reflexivity ].
Qed.

Lemma marker_delimited_double (d : ascii) :
  is_marker d = true -> marker_delimited (re_double d).
Proof.
  intros M. unfold marker_delimited.
  repeat apply Forall_cons; try apply Forall_nil; cbn [in_group cls];
    first [ left; reflexivity
          | right; intros c H; apply Ascii.eqb_eq in H; subst; exact M ].
Qed.

Lemma marker_delimited_single (d : ascii) :
  is_marker d = true -> marker_delimited (re_single d).
Proof.
  intros M. unfold marker_delimited.
  repeat apply Forall_cons; try apply Forall_nil; cbn [in_group cls];
    first [ left; reflexivity
          | right; intros c H; apply Ascii.eqb_eq in H; subst; exact M ].
Qed.

(** ** Sanitization *)

(** The sanitizer deletes every marker character and trims the result. *)
Lemma sanitize_keep (s : str) : _sanitize_inline_markup s = strip (keep s).
Proof.
  destruct s as [|c s]; [reflexivity|]. unfold _sanitize_inline_markup.
  set (s0 := c :: s). unfold re_sub at 1. rewrite sub_loop_stray by lia.
  rewrite !re_sub_keep;
    auto using marker_delimited_code, marker_delimited_double,
               marker_delimited_single.
Qed.

Lemma sanitize_no_padding (s : str) : no_padding (_sanitize_inline_markup s).
Proof. rewrite sanitize_keep. apply strip_no_padding. Qed.

Lemma sanitize_no_marker (s : str) :
  Forall (fun c => is_marker c = false) (_sanitize_inline_markup s).
Proof. rewrite sanitize_keep. apply strip_Forall, keep_no_marker. Qed.

(** C9. The markup-stripping transform is idempotent: sanitizing a
    sanitized string gives it back. *)
Theorem sanitize_idempotent (s : str) :
  _sanitize_inline_markup (_sanitize_inline_markup s) = _sanitize_inline_markup s.
Proof.
  rewrite (sanitize_keep (_sanitize_inline_markup s)).
  rewrite keep_fixed by apply sanitize_no_marker.
  apply strip_fixed, sanitize_no_padding.
Qed.

(** ** The block parser *)

Lemma parse_line_inv (raw_line : str) (b : block) :
  In b (parse_line raw_line) ->
  rstrip raw_line <> [] /\
  exists prefix payload,
    lstrip (rstrip raw_line) = prefix ++ payload /\
    text b = _sanitize_inline_markup payload.
Proof.
  unfold parse_line. destruct (rstrip raw_line) as [|c l] eqn:R; [intros []|].
  intros H. split; [discriminate|].
  set (stripped := lstrip (c :: l)) in *.
  repeat match type of H with
         | In _ (if ?g then _ else _) => destruct g
         end;
    destruct H as [<-|[]]; simpl;
    first [ eexists (firstn _ stripped), _; split;
              [symmetry; apply firstn_skipn | reflexivity]
          | exists [], stripped; split; reflexivity ].
Qed.

Lemma parse_txt_structure_inv (src : str) (b : block) :
  In b (parse_txt_structure (Some src)) ->
  exists raw_line, In raw_line (splitlines src) /\ In b (parse_line raw_line).
Proof. simpl. intros H. apply in_flat_map in H. exact H. Qed.

Lemma keep_space_iff (s : str) :
  Forall (fun c => isspace c = true) (keep s) <->
  Forall (fun c => isspace c = true \/ is_marker c = true) s.
Proof.
  induction s as [|c s IH]; [split; constructor|].
  unfold keep in *. simpl. destruct (is_marker c) eqn:M; simpl.
  - rewrite IH. split; intros H.
    + constructor; auto.
    + inversion H; assumption.
  - split; intros H; inversion H as [|? ? Hc Hs]; subst; constructor.
    + auto.
    + apply IH. exact Hs.
    + destruct Hc; congruence.
    + apply IH. exact Hs.
Qed.

(** The text of a sanitized string is empty exactly when the string holds
    whitespace and marker characters only. *)
Lemma sanitize_empty_iff (s : str) :
  _sanitize_inline_markup s = [] <->
  Forall (fun c => isspace c = true \/ is_marker c = true) s.
Proof. rewrite sanitize_keep, strip_empty_iff. apply keep_space_iff. Qed.

(** C10. The text of every parsed block has no whitespace at either end. *)
Theorem parsed_text_no_padding (src : option str) (b : block) :
  In b (parse_txt_structure src) -> no_padding (text b).
Proof.
  destruct src as [src|]; [|intros []].
  intros H. apply parse_txt_structure_inv in H as [raw_line [_ H]].
  apply parse_line_inv in H as [_ [prefix [payload [_ ->]]]].
  apply sanitize_no_padding.
Qed.

Lemma parsed_text_no_padding_witness :
  In (Block T_h1 (lit "Intro")) (parse_txt_structure (Some (lit "#  *Intro* ")))
  /\ no_padding (lit "Intro").
Proof.
  split.
  - vm_compute. left. reflexivity.
  - apply (parsed_text_no_padding (Some (lit "#  *Intro* "))
             (Block T_h1 (lit "Intro"))).
    vm_compute. left. reflexivity.
Defined.

(** C3, as stated, fails: the line [**] is not blank, and its block has
    the empty text. *)
Lemma parsed_text_empty_counterexample :
  exists b, In b (parse_txt_structure (Some (lit "**"))) /\ text b = [].
Proof. exists (Block T_p []). split; [vm_compute; left|]; reflexivity. Qed.

Lemma startswith_prefix (s old : str) :
  startswith s old = true -> s = old ++ skipn (List.length old) s.
Proof.
  revert s. induction old as [|a old IH]; intros s H; [reflexivity|].
  destruct s as [|c s]; [discriminate|]. simpl in H.
  apply andb_true_iff in H as [E H]. apply Ascii.eqb_eq in E. subst.
  simpl. f_equal. apply IH. exact H.
Qed.

(** The block of a line: its type is the one of the prefix the stripped
    line starts with, a paragraph when it starts with none, and its text
    is the sanitized rest of the line. *)
Lemma parse_line_payload (raw_line : str) (b : block) :
  In b (parse_line raw_line) ->
  rstrip raw_line <> [] /\
  exists payload,
    lstrip (rstrip raw_line) = block_prefix (type b) ++ payload /\
    match type b with
    | T_p => no_block_prefix (lstrip (rstrip raw_line))
    | _ => True
    end /\
    text b = _sanitize_inline_markup payload.
Proof.
  unfold parse_line. destruct (rstrip raw_line) as [|c l] eqn:R; [intros []|].
  intros H. split; [discriminate|].
  set (stripped := lstrip (c :: l)) in *.
  destruct (startswith stripped (lit "# ")) eqn:P1.
  { destruct H as [<-|[]]. exists (skipn 2 stripped).
    split; [apply (startswith_prefix _ _ P1) | split; [exact I | reflexivity]]. }
  destruct (startswith stripped (lit "## ")) eqn:P2.
  { destruct H as [<-|[]]. exists (skipn 3 stripped).
    split; [apply (startswith_prefix _ _ P2) | split; [exact I | reflexivity]]. }
  destruct (startswith stripped (lit "### ")) eqn:P3.
  { destruct H as [<-|[]]. exists (skipn 4 stripped).
    split; [apply (startswith_prefix _ _ P3) | split; [exact I | reflexivity]]. }
  destruct (startswith stripped (lit "- ")) eqn:P4.
  { destruct H as [<-|[]]. exists (skipn 2 stripped).
    split; [apply (startswith_prefix _ _ P4) | split; [exact I | reflexivity]]. }
  destruct H as [<-|[]]. exists stripped.
  split; [reflexivity|]. split; [|reflexivity].
  repeat split; assumption.
Qed.

(** C3, amended. Every parsed block comes from a line that is not blank:
    the stripped line is the prefix of the type of the block followed by
    a rest (the whole line for a paragraph, which starts with none of
    the prefixes), the text of the block is that rest sanitized, and it
    is empty exactly when the rest holds only whitespace and the marker
    characters [*], [_] and [`]. *)
Theorem parsed_text_empty_iff (src : str) (b : block) :
  In b (parse_txt_structure (Some src)) ->
  exists raw_line payload,
    In raw_line (splitlines src) /\
    rstrip raw_line <> [] /\
    lstrip (rstrip raw_line) = block_prefix (type b) ++ payload /\
    match type b with
    | T_p => no_block_prefix (lstrip (rstrip raw_line))
    | _ => True
    end /\
    text b = _sanitize_inline_markup payload /\
    (text b = [] <->
     Forall (fun c => isspace c = true \/ is_marker c = true) payload).
Proof.
  intros H. apply parse_txt_structure_inv in H as [raw_line [L H]].
  apply parse_line_payload in H as [R [payload [E [P T]]]].
  exists raw_line, payload. repeat split; auto.
  - intros Z. apply sanitize_empty_iff. congruence.
  - intros F. rewrite T. apply sanitize_empty_iff. exact F.
Qed.

Lemma parsed_text_empty_iff_witness :
  In (Block T_bullet (lit "point one"))
     (parse_txt_structure (Some (lit "  - point *one*"))) /\
  exists raw_line payload,
    In raw_line (splitlines (lit "  - point *one*")) /\
    rstrip raw_line <> [] /\
    lstrip (rstrip raw_line)
      = block_prefix (type (Block T_bullet (lit "point one"))) ++ payload /\
    match type (Block T_bullet (lit "point one")) with
    | T_p => no_block_prefix (lstrip (rstrip raw_line))
    | _ => True
    end /\
    text (Block T_bullet (lit "point one")) = _sanitize_inline_markup payload /\
    (text (Block T_bullet (lit "point one")) = [] <->
     Forall (fun c => isspace c = true \/ is_marker c = true) payload).
Proof.
  split.
  - vm_compute. left. reflexivity.
  - apply (parsed_text_empty_iff (lit "  - point *one*")
             (Block T_bullet (lit "point one"))).
    vm_compute. left. reflexivity.
Defined.

(** ** Greedy wrapping *)

Lemma split_from_words (w s : str) :
  Forall (fun c => isspace c = false) w -> Forall is_word (split_from w s).
Proof.
  revert w. induction s as [|c s IH]; intros w F; simpl.
  - destruct w; constructor; [split; [discriminate | exact F] | constructor].
  - destruct (isspace c) eqn:Q.
    + destruct w.
      * apply IH. constructor.
      * constructor; [split; [discriminate | exact F] | apply IH; constructor].
    + apply IH. apply Forall_app. split; [exact F | repeat constructor; exact Q].
Qed.

Lemma split_words (s : str) : Forall is_word (split s).
Proof. apply split_from_words. constructor. Qed.

Lemma is_word_no_padding (w : str) : is_word w -> no_padding w.
Proof.
  intros [_ F]. split.
  - destruct w; [exact I | inversion F; assumption].
  - destruct (rev w) as [|c r] eqn:R; [exact I|].
    assert (H : In c w) by (apply in_rev; rewrite R; left; reflexivity).
    rewrite Forall_forall in F. apply F. exact H.
Qed.

Lemma no_padding_join (cur w : str) :
  cur <> [] -> no_padding cur -> is_word w ->
  no_padding (cur ++ SPACE :: w).
Proof.
  intros N [H1 _] W. destruct (is_word_no_padding w W) as [_ H2]. split.
  - destruct cur; [congruence | exact H1].
  - rewrite rev_app_distr. simpl. rewrite <- app_assoc.
    destruct (rev w) as [|c r] eqn:R; [|exact H2].
    destruct W as [W _]. apply (f_equal (@rev _)) in R.
    rewrite rev_involutive in R. contradiction.
Qed.

Lemma strip_first_word (w : str) : is_word w -> strip (SPACE :: w) = w.
Proof.
  intros W. pose proof (is_word_no_padding w W) as [H1 H2].
  unfold strip, lstrip. simpl. change (isspace SPACE) with true. simpl.
  rewrite (dropwhile_fixed isspace w H1). unfold rstrip.
  rewrite (dropwhile_fixed isspace (rev w) H2). apply rev_involutive.
Qed.

Lemma len_app (a b : str) : len (a ++ b) = (len a + len b)%Z.
Proof. unfold len. rewrite length_app. lia. Qed.

Lemma len_join (cur w : str) : len (cur ++ SPACE :: w) = (len cur + 1 + len w)%Z.
Proof. rewrite len_app. unfold len. simpl. lia. Qed.

Section Budget.

Variable budget : Z.
Variable tx : str.

Lemma within_fits (l : str) : within budget tx l -> fits budget tx l.
Proof.
  unfold within, fits. intros [H|H]; [left; exact H|].
  destruct (Z_le_gt_dec (len l) budget); [left | right; split]; auto; lia.
Qed.

Lemma lines_loop_ok (ws lines : list str) (cur : str) :
  Forall (within budget tx) lines -> within budget tx cur -> Forall (fun w => In w (split tx)) ws ->
  Forall (within budget tx) (lines_loop budget ws lines cur).
Proof.
  revert lines cur. induction ws as [|w ws IH]; intros lines cur L C W; simpl.
  - apply Forall_app. split; [exact L | constructor; [exact C | constructor]].
  - inversion W as [|? ? Hw Hws]; subst.
    destruct (len cur + 1 + len w <=? budget)%Z eqn:Q.
    + apply IH; auto. left. rewrite len_join. lia.
    + apply IH; auto.
      * apply Forall_app. split; [exact L | constructor; [exact C | constructor]].
      * right. exact Hw.
Qed.

Lemma pptx_wrap_loop_ok (ws lines : list str) (cur : str) :
  Forall (within budget tx) lines -> within budget tx cur -> Forall (fun w => In w (split tx)) ws ->
  Forall (within budget tx) (fst (pptx_wrap_loop budget ws lines cur)) /\
  within budget tx (snd (pptx_wrap_loop budget ws lines cur)).
Proof.
  revert lines cur. induction ws as [|w ws IH]; intros lines cur L C W; simpl.
  - auto.
  - inversion W as [|? ? Hw Hws]; subst.
    destruct (len (strip (cur ++ SPACE :: w)) <=? budget)%Z eqn:Q.
    + apply IH; auto. left. lia.
    + apply IH; auto.
      * apply Forall_app. split; [exact L | constructor; [exact C | constructor]].
      * right. exact Hw.
Qed.

End Budget.

Lemma Forall_In_self {A : Type} (l : list A) : Forall (fun x => In x l) l.
Proof. apply Forall_forall. auto. Qed.

(** C5. Every line of the greedy wrap, of [_lines_for_paragraph] and of
    the loop written out in [txt_to_pptx], is within the budget unless it
    is a single word of the text longer than the budget.
    [_lines_for_paragraph] returns lines for every text but a blank,
    non-empty one, where indexing the empty word list raises. *)
Theorem wrap_within_budget (tx : str) (budget : Z) :
  (0 <= budget)%Z ->
  match _lines_for_paragraph tx budget with
  | Ok lines => Forall (fits budget tx) lines
  | Raise e => e = IndexError /\ tx <> [] /\ split tx = []
  end /\
  Forall (fits budget tx) (pptx_wrap budget tx).
Proof.
  intros B. split.
  - unfold _lines_for_paragraph. destruct tx as [|c s] eqn:T.
    + constructor; [left; unfold len; simpl; exact B | constructor].
    + rewrite <- T. unfold list_get. simpl.
      destruct (split tx) as [|w ws] eqn:S; simpl.
      * subst. split; [reflexivity | split; [discriminate | reflexivity]].
      * eapply Forall_impl; [apply within_fits|].
        apply lines_loop_ok;
          [constructor | right; rewrite S; left; reflexivity|].
        simpl. apply Forall_forall. intros x H. rewrite S. right. exact H.
  - unfold pptx_wrap.
    destruct (pptx_wrap_loop_ok budget tx (split tx) [] [])
      as [L C]; [constructor | left; exact B | apply Forall_In_self|].
    destruct (pptx_wrap_loop budget (split tx) [] []) as [lines cur].
    simpl in L, C. eapply Forall_impl; [apply within_fits|].
    destruct cur; [exact L|].
    apply Forall_app. split; [exact L | constructor; [exact C | constructor]].
Qed.

Lemma wrap_within_budget_witness :
  (0 <= 11)%Z /\
  match _lines_for_paragraph (lit "Hello world and everything-else") 11 with
  | Ok lines => Forall (fits 11 (lit "Hello world and everything-else")) lines
  | Raise e => e = IndexError /\ lit "Hello world and everything-else" <> []
               /\ split (lit "Hello world and everything-else") = []
  end /\
  Forall (fits 11 (lit "Hello world and everything-else"))
         (pptx_wrap 11 (lit "Hello world and everything-else")).
Proof.
  split; [lia|].
  apply (wrap_within_budget (lit "Hello world and everything-else") 11). lia.
Defined.

(** Once the first word is placed, the two loops agree. *)
Lemma pptx_wrap_loop_lines_loop (cpl : Z) (ws lines : list str) (cur : str) :
  Forall is_word ws -> cur <> [] -> no_padding cur ->
  snd (pptx_wrap_loop cpl ws lines cur) <> [] /\
  lines_loop cpl ws lines cur =
    fst (pptx_wrap_loop cpl ws lines cur) ++ [snd (pptx_wrap_loop cpl ws lines cur)].
Proof.
  revert lines cur. induction ws as [|w ws IH]; intros lines cur W N P; simpl.
  - auto.
  - inversion W as [|? ? Hw Hws]; subst.
    rewrite (strip_fixed _ (no_padding_join cur w N P Hw)), len_join.
    destruct (len cur + 1 + len w <=? cpl)%Z.
    + apply IH; auto.
      * destruct cur; [congruence | discriminate].
      * apply no_padding_join; assumption.
    + apply IH; auto.
      * destruct Hw. assumption.
      * apply is_word_no_padding. exact Hw.
Qed.

(** C4, as stated, fails.  On the empty string the loop of [txt_to_pptx]
    gives no line and [_lines_for_paragraph] one empty line; and the
    renderer counts the lines of the softened text: two words of 30 and 24
    letters fit one line of 55 characters, their softened forms do not. *)
Lemma wrap_refinement_counterexample :
  (pptx_wrap CHAR_PER_LINE [] = [] /\
   _lines_for_paragraph [] CHAR_PER_LINE = Ok [[]]) /\
  (let t := repeat "a"%char 30 ++ [SPACE] ++ repeat "b"%char 24 in
   needed_lines t = 2%Z /\ _lines_for_paragraph t CHAR_PER_LINE = Ok [t]).
Proof. vm_compute. repeat split. Qed.

(** When the first word is longer than the budget, the loop of
    [txt_to_pptx] first emits the empty current line, which counts as a
    needed line; [_lines_for_paragraph] starts from the word. *)
Example pptx_wrap_long_first_word :
  let w := repeat "-"%char 56 in
  pptx_wrap CHAR_PER_LINE w = [[]; w] /\
  _lines_for_paragraph w CHAR_PER_LINE = Ok [w].
Proof. vm_compute. split; reflexivity. Qed.

(** C4, amended. On every string whose first word is within the budget,
    the loop written out in [txt_to_pptx] and [_lines_for_paragraph]
    produce the same lines, at least one; the renderer runs the loop on
    the softened block text. *)
Theorem pptx_wrap_lines_for_paragraph (cpl : Z) (tx w0 : str) (ws : list str) :
  split tx = w0 :: ws -> (len w0 <= cpl)%Z ->
  _lines_for_paragraph tx cpl = Ok (pptx_wrap cpl tx) /\
  Z.max 1 (Z.of_nat (List.length (pptx_wrap cpl tx)))
    = Z.of_nat (List.length (pptx_wrap cpl tx)).
Proof.
  intros S L. pose proof (split_words tx) as W. rewrite S in W.
  inversion W as [|? ? Hw0 Hws]; subst.
  assert (E : _lines_for_paragraph tx cpl = Ok (pptx_wrap cpl tx)).
  { unfold _lines_for_paragraph, pptx_wrap. destruct tx as [|c s] eqn:T.
    - discriminate S.
    - rewrite <- T in *. rewrite S. unfold list_get. simpl.
      rewrite (strip_first_word w0 Hw0).
      apply Z.leb_le in L. rewrite L.
      destruct (pptx_wrap_loop_lines_loop cpl ws [] w0 Hws) as [N E].
      + destruct Hw0. assumption.
      + apply is_word_no_padding. exact Hw0.
      + change (drop 0 ws) with ws. rewrite E.
        destruct (pptx_wrap_loop cpl ws [] w0) as [lines cur].
        simpl in *. destruct cur; [congruence | reflexivity]. }
  split; [exact E|].
  unfold pptx_wrap in *. rewrite S in *. simpl.
  rewrite (strip_first_word w0 Hw0). apply Z.leb_le in L. rewrite L.
  destruct (pptx_wrap_loop_lines_loop cpl ws [] w0 Hws) as [N _].
  - destruct Hw0. assumption.
  - apply is_word_no_padding. exact Hw0.
  - destruct (pptx_wrap_loop cpl ws [] w0) as [lines cur]. simpl in N.
    destruct cur; [congruence|]. rewrite length_app. simpl. lia.
Qed.

Lemma pptx_wrap_lines_for_paragraph_witness :
  split (lit "Hello world and more") = [lit "Hello"; lit "world"; lit "and"; lit "more"]
  /\ (len (lit "Hello") <= 11)%Z
  /\ _lines_for_paragraph (lit "Hello world and more") 11
       = Ok (pptx_wrap 11 (lit "Hello world and more"))
  /\ Z.max 1 (Z.of_nat (List.length (pptx_wrap 11 (lit "Hello world and more"))))
       = Z.of_nat (List.length (pptx_wrap 11 (lit "Hello world and more"))).
Proof.
  split; [reflexivity|]. split; [vm_compute; discriminate|].
  apply (pptx_wrap_lines_for_paragraph 11 (lit "Hello world and more")
           (lit "Hello") [lit "world"; lit "and"; lit "more"]).
  - reflexivity.
  - vm_compute. discriminate.
Defined.

(** ** The palette selector *)

(** The digest of "abc", as the standard gives it. *)
Example sha256_abc :
  hexdigest (SHA256.digest (encode (lit "abc")))
  = lit "ba7816bf8f01cfea414140de5dae2223b00361a396177a9cb410ff61f20015ad".
Proof. vm_compute. reflexivity. Qed.

(** A title with a character beyond ASCII, over two blocks of 64 bytes. *)
Example sha256_two_blocks :
  hexdigest (SHA256.digest (encode
    (ascii_of_N 233 :: concat (repeat (lit "word ") 20))))
  = lit "79599127950cd62ebad7d75084cc3a351eedb341b9c0de2da1312d2b9df7c638".
Proof. vm_compute. reflexivity. Qed.

Lemma hexvalue_hexdigit (n : N) : (n < 16)%N -> hexvalue (hexdigit n) = Some n.
Proof.
  intros H. destruct n as [|q]; [reflexivity|].
  do 4 (destruct q as [q|q|]; try reflexivity); exfalso; lia.
Qed.

Lemma int16_from_digits (l : list N) (acc : N) :
  Forall (fun n => (n < 16)%N) l ->
  exists v, int16_from acc (map hexdigit l) = Ok v.
Proof.
  intros F. revert acc. induction F as [|n l H _ IH]; intros acc; simpl.
  - eauto.
  - rewrite (hexvalue_hexdigit n H). apply IH.
Qed.

Lemma int16_hex8 (a : N) (rest : str) :
  exists v, int16 (firstn 8 (hex 8 a ++ rest)) = Ok v.
Proof.
  unfold hex. cbn [seq rev app map firstn].
  match goal with
  | |- exists v, int16 (?c :: ?l) = Ok v =>
      change (c :: l) with
        (map hexdigit
           (map (fun i => (N.shiftr a (4 * N.of_nat i) mod 16)%N)
                [7; 6; 5; 4; 3; 2; 1; 0]))
  end.
  apply (int16_from_digits _ 0%N).
  apply Forall_forall. intros n H. apply in_map_iff in H as [i [<- _]].
  apply N.mod_lt. discriminate.
Qed.

Lemma palette_of_index (n : N) :
  exists pal,
    (let* k := list_get (map fst PALETTES)
                 (n mod N.of_nat (List.length (map fst PALETTES)))%N in
     dict_get PALETTES k) = Ok pal /\
    In pal (map snd PALETTES).
Proof.
  change (N.of_nat (List.length (map fst PALETTES))) with 3%N.
  pose proof (N.mod_lt n 3 ltac:(discriminate)) as L.
  destruct (n mod 3)%N as [|q]; [|destruct q as [q|q|]; [|destruct q|]];
    try (exfalso; lia);
    eexists; (split; [vm_compute; reflexivity|]); simpl; auto.
Qed.

(** The selector raises nothing and returns one of the defined palettes. *)
Lemma pick_palette_ok (key : str) :
  exists pal, pick_palette key = Ok pal /\ In pal (map snd PALETTES).
Proof.
  unfold pick_palette.
  destruct (SHA256.digest (encode key)) as [[[[[[[a b] c] d] e] f] g] h].
  unfold hexdigest.
  destruct (int16_hex8 a (hex 8 b ++ hex 8 c ++ hex 8 d ++ hex 8 e ++ hex 8 f
                            ++ hex 8 g ++ hex 8 h)) as [v ->].
  apply palette_of_index.
Qed.

(** C7. Two calls of [pick_palette] with the same title return the same
    palette, one of the defined palettes: the result is a function of the
    title alone, and no call raises. *)
Theorem pick_palette_deterministic (k1 k2 : str) :
  k1 = k2 ->
  exists pal,
    pick_palette k1 = Ok pal /\ pick_palette k2 = Ok pal /\
    In pal (map snd PALETTES).
Proof.
  intros <-. destruct (pick_palette_ok k1) as [pal [E I]].
  exists pal. auto.
Qed.

Lemma pick_palette_deterministic_witness :
  lit "Demo" = lit "Demo" /\
  exists pal,
    pick_palette (lit "Demo") = Ok pal /\ pick_palette (lit "Demo") = Ok pal /\
    In pal (map snd PALETTES).
Proof.
  split; [reflexivity|].
  apply (pick_palette_deterministic (lit "Demo") (lit "Demo")). reflexivity.
Defined.

(** ** The fixed-page renderer *)

Lemma prepend_snoc (run : list str) (tx : str) (segs : list segment) :
  prepend (run ++ [tx]) segs = prepend run (prepend [tx] segs).
Proof.
  destruct run as [|r run]; [reflexivity|].
  destruct segs as [|[items|b] segs]; simpl; rewrite <- ?app_assoc; reflexivity.
Qed.

Lemma flush_bullets_story (st : pdf_state) :
  story (flush_bullets st) = story st ++ flat_map emit (prepend (bullets st) [])
  /\ bullets (flush_bullets st) = [].
Proof.
  unfold flush_bullets. destruct (bullets st) as [|b bs] eqn:B; simpl.
  - rewrite app_nil_r. auto.
  - auto.
Qed.

Lemma emit_prepend (run : list str) (b : block) (segs : list segment) :
  flat_map emit (prepend run (Other b :: segs))
  = flat_map emit (prepend run []) ++ flat_map emit (Other b :: segs).
Proof. destruct run; reflexivity. Qed.

(** The loop and the final flush emit the segments of the blocks, the
    buffered bullets in front. *)
Lemma pdf_loop_story (blocks : list block) (st : pdf_state) :
  story (flush_bullets (fold_left pdf_step blocks st))
  = story st ++ flat_map emit (prepend (bullets st) (segments blocks)).
Proof.
  revert st. induction blocks as [|b blocks IH]; intros st.
  - apply flush_bullets_story.
  - cbn [fold_left]. rewrite IH. cbn [segments fold_right].
    fold (segments blocks). unfold pdf_step, segment_cons.
    destruct (flush_bullets_story st) as [S B].
    destruct (type b) eqn:T; cbn [story bullets];
      rewrite ?S, ?B, ?prepend_snoc, ?emit_prepend; cbn [prepend];
      try reflexivity;
      rewrite <- !app_assoc; f_equal; f_equal;
      unfold emit at 2; cbn [flat_map]; rewrite T; reflexivity.
Qed.

Lemma segments_blocks (blocks : list block) :
  flat_map segment_blocks (segments blocks) = blocks.
Proof.
  induction blocks as [|[t tx] blocks IH]; [reflexivity|].
  cbn [segments fold_right]. fold (segments blocks). unfold segment_cons.
  destruct t; cbn [type text]; try (simpl; congruence).
  destruct (segments blocks) as [|[items|b] segs]; simpl in *; congruence.
Qed.

Lemma segments_maximal (blocks : list block) : maximal_runs (segments blocks).
Proof.
  induction blocks as [|[t tx] blocks IH]; [exact I|].
  cbn [segments fold_right]. fold (segments blocks). unfold segment_cons.
  destruct t; cbn [type text]; try (split; [discriminate | exact IH]).
  destruct (segments blocks) as [|[items|b] segs]; simpl in *.
  - repeat split; discriminate.
  - destruct IH as [_ [H1 H2]]. repeat split; [discriminate | exact H1 | exact H2].
  - repeat split; try discriminate; apply IH.
Qed.

(** The scenario of the specification: a heading, a paragraph and two
    bullets, for the title "Demo". *)
Example pdf_demo :
  txt_to_pdf
    (parse_txt_structure
       (Some (lit "# Intro" ++ [LF] ++ lit "Hello world" ++ [LF]
              ++ lit "- point one" ++ [LF] ++ lit "- point two")))
    (lit "Demo")
  = Ok [ Paragraph (lit "Demo") TitleX; Spacer 1 8;
         Paragraph (lit "<para backColor=" ++ [QUOTE] ++ lit "#5291ff"
                    ++ [QUOTE] ++ lit "> </para>") Bar;
         Spacer 1 10;
         PageBreak; Paragraph (lit "Intro") H1X;
         Paragraph (lit "Hello world") BodyX; Spacer 1 4;
         ListFlowable [lit "point one"; lit "point two"]; Spacer 1 6 ].
Proof. vm_compute. reflexivity. Qed.

(** C8. The story of the fixed-page renderer is its head followed by what
    the segments of the block sequence emit: one grouped list for each
    maximal run of bullets, at the place of the run, so before the block
    that follows it or at the end, and styled paragraphs for the other
    blocks only. *)
Theorem pdf_bullet_runs_grouped (blocks : list block) (title : str) :
  txt_to_pdf blocks title
    = (let* palette := pick_palette title in
       Ok (pdf_head palette title ++ flat_map emit (segments blocks))) /\
  flat_map segment_blocks (segments blocks) = blocks /\
  maximal_runs (segments blocks).
Proof.
  split; [|split; [apply segments_blocks | apply segments_maximal]].
  unfold txt_to_pdf. destruct (pick_palette title) as [pal|e]; simpl; [|reflexivity].
  rewrite pdf_loop_story. reflexivity.
Qed.

(** ** The slide renderer *)

Lemma fold_add_paragraph (pal : palette) (lines : list str) (c : rgb)
    (r : shape) (b : box) (ps : list para) (pl : list Z) :
  fold_left (fun sl ln => add_paragraph 1 (line_para pal ln) sl) lines
            (Slide c [r; TextBox b ps] pl)
  = Slide c [r; TextBox b (ps ++ map (line_para pal) lines)] pl.
Proof.
  revert ps. induction lines as [|ln lines IH]; intros ps; simpl.
  - rewrite app_nil_r. reflexivity.
  - unfold add_paragraph at 2. simpl. rewrite IH, <- app_assoc. reflexivity.
Qed.

Lemma fold_add_paragraph_placed (pal : palette) (i : nat) (lines : list str)
    (sl : slide) :
  placed (fold_left (fun sl ln => add_paragraph i (line_para pal ln) sl) lines sl)
  = placed sl.
Proof.
  revert sl. induction lines as [|ln lines IH]; intros sl; simpl; [reflexivity|].
  rewrite IH. reflexivity.
Qed.

(** What the loop does with a block that is neither a level-1 nor a
    level-2 heading. *)
Lemma pptx_step_content (pal : palette) (st : pptx_state) (b : block) :
  type b <> T_h1 -> type b <> T_h2 ->
  pptx_step pal st b =
    let st' := ensure_space pal (needed_lines (text b)) st in
    let sl := fold_left
                (fun sl ln => add_paragraph (tf st') (line_para pal ln) sl)
                (pptx_wrap CHAR_PER_LINE (soften (text b))) (active st') in
    PptxState (finished st')
      (Slide (background sl) (shapes sl) (placed sl ++ [needed_lines (text b)]))
      (tf st') (used_lines st' + needed_lines (text b)).
Proof.
  intros H1 H2. unfold pptx_step, needed_lines.
  destruct (type b); try congruence; reflexivity.
Qed.



Lemma load_snoc (c : rgb) (sh : list shape) (pl : list Z) (n : Z) :
  load (Slide c sh (pl ++ [n])) = (load (Slide c sh pl) + n)%Z.
Proof.
  unfold load. cbn [placed]. induction pl as [|m pl IH]; simpl; lia.
Qed.

Lemma within_capacity_empty (sl : slide) : placed sl = [] -> within_capacity sl.
Proof. intros E. left. unfold load. rewrite E. vm_compute. discriminate. Qed.

(** The capacity the loop does keep: a slide is over [MAX_LINES] only
    when it holds a single block. *)
Lemma pptx_step_capacity (pal : palette) (st : pptx_state) (b : block) :
  used_lines st = load (active st) ->
  within_capacity (active st) -> Forall within_capacity (finished st) ->
  used_lines (pptx_step pal st b) = load (active (pptx_step pal st b)) /\
  within_capacity (active (pptx_step pal st b)) /\
  Forall within_capacity (finished (pptx_step pal st b)).
Proof.
  intros U A F.
  assert (FA : Forall within_capacity (finished st ++ [active st])).
  { apply Forall_app. split; [exact F | constructor; [exact A | constructor]]. }
  assert (C : type b = T_h1 \/ type b = T_h2 \/ (type b <> T_h1 /\ type b <> T_h2))
    by (destruct (type b); auto; right; right; split; discriminate).
  destruct C as [T|[T|[T1 T2]]].
  - unfold pptx_step. rewrite T. cbn.
    split; [reflexivity|]. split; [apply within_capacity_empty; reflexivity|].
    apply Forall_app. split; [exact FA|].
    constructor; [apply within_capacity_empty; reflexivity | constructor].
  - unfold pptx_step. rewrite T. cbn.
    split; [reflexivity|]. split; [apply within_capacity_empty; reflexivity|].
    exact FA.
  - rewrite (pptx_step_content pal st b T1 T2). unfold ensure_space.
    destruct (Z.gtb_spec (needed_lines (text b) + used_lines st) MAX_LINES)
      as [Q|Q];
      cbn [active tf finished used_lines]; unfold within_capacity;
      rewrite !load_snoc; unfold load; cbn [placed];
      rewrite !fold_add_paragraph_placed.
    + cbn [placed content_slide fold_right].
      split; [lia|]. split; [right; eexists; reflexivity | exact FA].
    + unfold load in U. rewrite <- U.
      split; [reflexivity|]. split; [left; lia | exact F].
Qed.

Lemma capacity_unless_single_block (pal : palette) (title : str)
    (blocks : list block) :
  Forall within_capacity (deck (pptx_run pal title blocks)).
Proof.
  unfold pptx_run.
  assert (H : used_lines (pptx_init pal title) = load (active (pptx_init pal title))
              /\ within_capacity (active (pptx_init pal title))
              /\ Forall within_capacity (finished (pptx_init pal title))).
  { repeat split; [left; vm_compute; discriminate|].
    repeat constructor. vm_compute. discriminate. }
  revert H. generalize (pptx_init pal title).
  induction blocks as [|b blocks IH]; intros st [U [A F]]; simpl.
  - unfold deck. apply Forall_app. split; [exact F | constructor; [exact A | constructor]].
  - apply IH. apply pptx_step_capacity; assumption.
Qed.

(** C1 at a paragraph of 500 words: the deck is the cover, the first
    content slide, left empty, and one slide with all 46 lines of the
    paragraph, over the 17 lines of [MAX_LINES]. *)
Theorem capacity_exceeded_by_long_paragraph :
  exists tx slides,
    parse_txt_structure (Some five_hundred_words) = [Block T_p tx] /\
    txt_to_pptx [Block T_p tx] (lit "Demo") = Ok slides /\
    map load slides = [0; 0; 46]%Z /\
    MAX_LINES = 17%Z.
Proof.
  eexists. eexists. split; [vm_compute; reflexivity|].
  split; [vm_compute; reflexivity|].
  split; vm_compute; reflexivity.
Qed.

(** ** The entry point *)

Lemma startswith_app (old rest : str) : startswith (old ++ rest) old = true.
Proof.
  induction old as [|a old IH]; [destruct rest; reflexivity|].
  simpl. rewrite Ascii.eqb_refl. exact IH.
Qed.

Lemma startswith_skipn (s old : str) :
  startswith s old = true -> s = old ++ skipn (List.length old) s.
Proof.
  revert s. induction old as [|a old IH]; intros s H; [reflexivity|].
  destruct s as [|c s]; [discriminate|]. simpl in H.
  apply andb_true_iff in H as [E H]. apply Ascii.eqb_eq in E. subst.
  simpl. f_equal. apply IH. exact H.
Qed.

(** The fuel [replace] gives to the scan is enough: more changes nothing. *)
Lemma replace_loop_fuel (old new : str) (n m : nat) (s : str) :
  old <> [] -> List.length s <= n -> List.length s <= m ->
  replace_loop n old new s = replace_loop m old new s.
Proof.
  intros O. revert m s. induction n as [|n IH]; intros m s Hn Hm.
  - destruct s; [|simpl in Hn; lia]. destruct m; reflexivity.
  - destruct m as [|m]; [destruct s; [reflexivity | simpl in Hm; lia]|].
    destruct s as [|c s]; [reflexivity|]. cbn [replace_loop].
    destruct (startswith (c :: s) old); f_equal.
    + destruct old as [|a old]; [congruence|]. cbn [List.length skipn].
      pose proof (length_skipn (List.length old) s). apply IH; simpl in *; lia.
    + apply IH; simpl in *; lia.
Qed.

(** Replacing [old], when it occurs, by a [new] that differs from it at
    some position gives another string. *)
Lemma replace_loop_changes (old new : str) (n : nat) (s : str) :
  old <> [] -> (forall x y : str, new ++ x <> old ++ y) ->
  List.length s <= n -> (exists pre rest, s = pre ++ old ++ rest) ->
  replace_loop n old new s <> s.
Proof.
  intros O D. revert s. induction n as [|n IH]; intros s L [pre [rest E]].
  - destruct s; [|simpl in L; lia].
    destruct pre; [destruct old; [congruence | discriminate] | discriminate].
  - destruct s as [|c s].
    + destruct pre; [destruct old; [congruence | discriminate] | discriminate].
    + cbn [replace_loop]. destruct (startswith (c :: s) old) eqn:W.
      * rewrite (startswith_skipn _ _ W) at 2. apply D.
      * intros H. injection H as H. revert H. apply IH; [simpl in L; lia|].
        destruct pre as [|a pre].
        -- simpl in E. rewrite E, startswith_app in W. discriminate.
        -- injection E as _ E. eauto.
Qed.

Lemma path_join_suffix (a b : str) : exists pre, path_join a b = pre ++ b.
Proof.
  unfold path_join. destruct (startswith b (lit "/")); [exists []; reflexivity|].
  destruct (rev a) as [|c r]; [exists []; reflexivity|].
  destruct (Ascii.eqb c "/"); [exists a; reflexivity|].
  exists (a ++ lit "/"). rewrite <- app_assoc. reflexivity.
Qed.

Lemma rendered_render (e : env) (filetype : str) (blocks : list block)
    (topic : str) :
  In filetype [lit "pdf"; lit "docx"; lit "pptx"] ->
  exists f,
    rendered filetype blocks topic f /\
    render e filetype blocks topic = Some (lit "." ++ filetype, built e f).
Proof.
  intros H. destruct (pick_palette_ok topic) as [pal [E _]].
  unfold render, rendered, txt_to_pdf, txt_to_docx, txt_to_pptx. rewrite E.
  cbn [bind].
  destruct H as [<-|[<-|[<-|[]]]]; eexists; (split; [|reflexivity]).
  - left. split; [reflexivity|]. eexists. split; reflexivity.
  - right. left. split; [reflexivity|]. eexists. split; reflexivity.
  - right. right. split; [reflexivity|]. eexists. split; reflexivity.
Qed.

Lemma extension_differs (filetype : str) :
  In filetype [lit "pdf"; lit "docx"; lit "pptx"] ->
  forall x y : str, (lit "." ++ filetype) ++ x <> lit ".txt" ++ y.
Proof.
  intros H x y E. destruct H as [<-|[<-|[<-|[]]]]; discriminate E.
Qed.

(** The call once the key is there, the model has answered and the
    directory is ready. *)
Lemma file_generator_answered (e : env) (w : world) (topic filetype : str)
    (save_path : option str) (answer : str) :
  key_set e -> generate_content e (prompt topic) = Ok answer ->
  prepared e save_path ->
  file_generator e w topic filetype save_path
  = let path := text_path e topic save_path in
    match write_file e path (TextFile (strip answer)) w with
    | Raise x => (Raise x, w)
    | Ok w1 =>
        match render e filetype (parse_txt_structure (Some (strip answer)))
                topic with
        | None => (Ok path, w1)
        | Some (ext, r) =>
            let out := replace (lit ".txt") ext path in
            match r with
            | Raise x => (Raise x, w1)
            | Ok f =>
                match write_file e out f w1 with
                | Raise x => (Raise x, w1)
                | Ok w2 => (Ok out, open_file out w2)
                end
            end
        end
    end.
Proof.
  intros [key [K N]] G P. unfold file_generator, _ensure_genai. rewrite K.
  destruct key as [|c key]; [congruence|].
  unfold prompt in G. rewrite G.
  unfold resolve_save_path, text_path, prepared in *.
  destruct save_path as [[|a q]|]; try rewrite P; reflexivity.
Qed.

(** What a call with a renderer returns and writes once the text file is
    written: the outcome turns on the library and on the second file. *)
Lemma file_generator_rendered (e : env) (w : world) (topic filetype : str)
    (save_path : option str) (answer : str) :
  key_set e -> generate_content e (prompt topic) = Ok answer ->
  prepared e save_path ->
  open_for_writing e (text_path e topic save_path) = Ok tt ->
  In filetype [lit "pdf"; lit "docx"; lit "pptx"] ->
  let raw := strip answer in
  let txt := text_path e topic save_path in
  let out := replace (lit ".txt") (lit "." ++ filetype) txt in
  exists f,
    rendered filetype (parse_txt_structure (Some raw)) topic f /\
    file_generator e w topic filetype save_path
    = match build_document e f, open_for_writing e out with
      | Ok _, Ok _ =>
          (Ok out,
           World (<[out := f]> (<[txt := TextFile raw]> (files w)))
                 (opened w ++ [out]))
      | Raise x, _ | Ok _, Raise x =>
          (Raise x, World (<[txt := TextFile raw]> (files w)) (opened w))
      end.
Proof.
  intros KS G P O F raw txt out.
  destruct (rendered_render e filetype (parse_txt_structure (Some raw)) topic F)
    as [f [Rf R]].
  exists f. split; [exact Rf|].
  rewrite (file_generator_answered e w topic filetype save_path answer KS G P).
  cbn zeta. unfold write_file at 1. rewrite O. cbn [bind].
  fold raw. rewrite R. unfold built, write_file. cbn [files opened open_file].
  destruct (build_document e f) as [[]|x]; cbn [bind]; [|reflexivity].
  fold txt. fold out.
  destruct (open_for_writing e out) as [[]|y]; reflexivity.
Qed.

Lemma default_path_changes (e : env) (topic filetype : str) :
  In filetype [lit "pdf"; lit "docx"; lit "pptx"] ->
  replace (lit ".txt") (lit "." ++ filetype) (text_path e topic None)
  <> text_path e topic None.
Proof.
  intros F. unfold replace. apply replace_loop_changes.
  - discriminate.
  - apply extension_differs. exact F.
  - lia.
  - unfold text_path.
    destruct (path_join_suffix (DEFAULT_SAVE_PATH e)
                (replace (lit " ") (lit "_") topic ++ lit ".txt")) as [pre E].
    exists (pre ++ replace (lit " ") (lit "_") topic), [].
    rewrite E, app_nil_r, <- app_assoc. reflexivity.
Qed.

(** C2, as stated, fails: where the model answers "Hello" and the file
    system and the library refuse nothing, the call for a PDF about
    "Demo" returns the path of the PDF and has also written the generated
    text at the path of the text file. *)
Lemma single_file_counterexample :
  let e := Env (Some (lit "key")) (lit "/home/u/Documents/AssistantOutputs")
               (fun _ => Ok (lit "Hello")) (fun _ => Ok tt) (fun _ => Ok tt)
               (fun _ => Ok tt) in
  let r := file_generator e (World ∅ []) (lit "Demo") (lit "pdf") None in
  r.1 = Ok (lit "/home/u/Documents/AssistantOutputs/Demo.pdf") /\
  files r.2 !! lit "/home/u/Documents/AssistantOutputs/Demo.txt"
    = Some (TextFile (lit "Hello")).
Proof.
  intros e r.
  assert (KS : key_set e) by (exists (lit "key"); split; [reflexivity | discriminate]).
  destruct (file_generator_rendered e (World ∅ []) (lit "Demo") (lit "pdf")
              None (lit "Hello") KS eq_refl eq_refl eq_refl
              ltac:(left; reflexivity)) as [f [_ E]].
  pose proof (default_path_changes e (lit "Demo") (lit "pdf")
                ltac:(left; reflexivity)) as D.
  unfold r. rewrite E. cbn [build_document open_for_writing e fst snd files].
  split.
  - f_equal.
  - rewrite lookup_insert_ne by exact D. apply lookup_insert_eq.
Qed.

(** C2, amended. In a call for a PDF, DOCX or PPTX file without a path
    hint, with the API key set, where the model answers, the default
    directory can be made and the text file opened, the generated text is
    written at the default path, which ends in [.txt].  The document is
    the one the renderer of the format makes of the blocks of that text,
    and its path is the default path with [.txt] replaced by the
    extension of the format, a different path.  When the library makes
    the document and its file can be opened, the document is written
    there and its path is returned and opened: two files are written and
    no other.  When not, the call raises what the library or the file
    system raised and has written the text file only. *)
Theorem file_generator_writes_text_and_document (e : env) (w : world)
    (topic filetype key answer : str) :
  GEMINI_API_KEY e = Some key -> key <> [] ->
  In filetype [lit "pdf"; lit "docx"; lit "pptx"] ->
  generate_content e (prompt topic) = Ok answer ->
  makedirs e (DEFAULT_SAVE_PATH e) = Ok tt ->
  let raw := strip answer in
  let txt := path_join (DEFAULT_SAVE_PATH e)
               (replace (lit " ") (lit "_") topic ++ lit ".txt") in
  let out := replace (lit ".txt") (lit "." ++ filetype) txt in
  open_for_writing e txt = Ok tt ->
  out <> txt /\
  exists f,
    rendered filetype (parse_txt_structure (Some raw)) topic f /\
    file_generator e w topic filetype None
    = match build_document e f, open_for_writing e out with
      | Ok _, Ok _ =>
          (Ok out,
           World (<[out := f]> (<[txt := TextFile raw]> (files w)))
                 (opened w ++ [out]))
      | Raise x, _ | Ok _, Raise x =>
          (Raise x, World (<[txt := TextFile raw]> (files w)) (opened w))
      end.
Proof.
  intros K N F G M raw txt out O. split.
  - apply (default_path_changes e topic filetype F).
  - apply (file_generator_rendered e w topic filetype None answer); auto.
    exists key. auto.
Qed.

Lemma file_generator_writes_text_and_document_witness :
  let e := Env (Some (lit "key")) (lit "/home/u/Documents/AssistantOutputs")
               (fun _ => Ok (lit "# Intro")) (fun _ => Ok tt)
               (fun _ => Ok tt) (fun _ => Ok tt) in
  let w := World ∅ [] in
  GEMINI_API_KEY e = Some (lit "key") /\ lit "key" <> [] /\
  In (lit "pptx") [lit "pdf"; lit "docx"; lit "pptx"] /\
  generate_content e (prompt (lit "My topic")) = Ok (lit "# Intro") /\
  makedirs e (DEFAULT_SAVE_PATH e) = Ok tt /\
  let raw := strip (lit "# Intro") in
  let txt := path_join (DEFAULT_SAVE_PATH e)
               (replace (lit " ") (lit "_") (lit "My topic") ++ lit ".txt") in
  let out := replace (lit ".txt") (lit "." ++ lit "pptx") txt in
  open_for_writing e txt = Ok tt /\
  out <> txt /\
  exists f,
    rendered (lit "pptx") (parse_txt_structure (Some raw)) (lit "My topic") f /\
    file_generator e w (lit "My topic") (lit "pptx") None
    = match build_document e f, open_for_writing e out with
      | Ok _, Ok _ =>
          (Ok out,
           World (<[out := f]> (<[txt := TextFile raw]> (files w)))
                 (opened w ++ [out]))
      | Raise x, _ | Ok _, Raise x =>
          (Raise x, World (<[txt := TextFile raw]> (files w)) (opened w))
      end.
Proof.
  intros e w. split; [reflexivity|]. split; [discriminate|].
  split; [right; right; left; reflexivity|].
  split; [reflexivity|]. split; [reflexivity|].
  intros raw txt out. split; [reflexivity|].
  apply (file_generator_writes_text_and_document e w (lit "My topic")
           (lit "pptx") (lit "key") (lit "# Intro")).
  - reflexivity.
  - discriminate.
  - right. right. left. reflexivity.
  - reflexivity.
  - reflexivity.
  - reflexivity.
Defined.

(** * Further properties of the module *)

(** ** Sanitization and parsing *)

(** X1. The sanitizer is the deletion of every [*], [_] and [`] followed by
    trimming: the five substitutions of paired markers change nothing in
    what it returns. *)
Theorem sanitize_is_delete_then_strip (s : str) :
  _sanitize_inline_markup s
  = strip (List.filter (fun c => negb (is_marker c)) s).
Proof. apply sanitize_keep. Qed.

(** X2. No marker character is left in the text of a parsed block. *)
Theorem parsed_text_no_marker (src : option str) (b : block) :
  In b (parse_txt_structure src) ->
  Forall (fun c => c <> STAR /\ c <> UNDERSCORE /\ c <> BACKTICK) (text b).
Proof.
  destruct src as [src|]; [|intros []].
  intros H. apply parse_txt_structure_inv in H as [raw_line [_ H]].
  apply parse_line_inv in H as [_ [prefix [payload [_ ->]]]].
  eapply Forall_impl; [|apply sanitize_no_marker].
  intros c M. unfold is_marker in M.
  apply orb_false_iff in M as [M M3]. apply orb_false_iff in M as [M1 M2].
  apply Ascii.eqb_neq in M1, M2, M3. auto.
Qed.

Lemma parsed_text_no_marker_witness :
  In (Block T_p (lit "bold and code"))
     (parse_txt_structure (Some (lit "**bold** and `code`_"))) /\
  Forall (fun c => c <> STAR /\ c <> UNDERSCORE /\ c <> BACKTICK)
         (lit "bold and code").
Proof.
  split.
  - vm_compute. left. reflexivity.
  - apply (parsed_text_no_marker (Some (lit "**bold** and `code`_"))
             (Block T_p (lit "bold and code"))).
    vm_compute. left. reflexivity.
Defined.

Lemma dropwhile_Forall (q : ascii -> bool) (P : ascii -> Prop) (s : str) :
  Forall P s -> Forall P (dropwhile q s).
Proof.
  intros F. destruct (dropwhile_split q s) as [pre [E _]].
  rewrite E in F. apply Forall_app in F as [_ F]. exact F.
Qed.

Lemma Forall_rev_iff {A : Type} (P : A -> Prop) (l : list A) :
  Forall P l -> Forall P (rev l).
Proof.
  intros F. apply Forall_forall. intros x H. apply in_rev in H.
  rewrite Forall_forall in F. auto.
Qed.

Lemma rstrip_Forall (P : ascii -> Prop) (s : str) :
  Forall P s -> Forall P (rstrip s).
Proof. intros F. apply Forall_rev_iff, dropwhile_Forall, Forall_rev_iff, F. Qed.

Lemma rstrip_blank (s : str) :
  Forall (fun c => isspace c = true) s -> rstrip s = [].
Proof.
  intros F. unfold rstrip. rewrite dropwhile_all; [reflexivity|].
  apply Forall_rev_iff. exact F.
Qed.

(** The characters of every line of [splitlines_from] are characters of
    the line being read or of the rest of the text. *)
Lemma splitlines_from_Forall (P : ascii -> Prop) (n : nat) (cur s : str) :
  List.length s <= n -> Forall P cur -> Forall P s ->
  Forall (Forall P) (splitlines_from cur s).
Proof.
  revert cur s. induction n as [|n IH]; intros cur s L C F.
  - destruct s; [|simpl in L; lia]. simpl.
    destruct cur; constructor; [exact C | constructor].
  - destruct s as [|c s]; simpl.
    + destruct cur; constructor; [exact C | constructor].
    + inversion F as [|? ? Pc Fs]; subst. simpl in L.
      destruct (Ascii.eqb c CR).
      * destruct s as [|c' s'].
        -- constructor; [exact C | apply IH; [simpl; lia | constructor | constructor]].
        -- inversion Fs as [|? ? Pc' Fs']; subst. simpl in L.
           destruct (Ascii.eqb c' LF);
             (constructor; [exact C | apply IH; [simpl; lia | constructor | auto]]).
      * destruct (is_linebreak c).
        -- constructor; [exact C | apply IH; [lia | constructor | exact Fs]].
        -- apply IH; [lia | | exact Fs].
           apply Forall_app. split; [exact C | constructor; [exact Pc | constructor]].
Qed.

Lemma parse_line_blank (raw_line : str) :
  Forall (fun c => isspace c = true) raw_line -> parse_line raw_line = [].
Proof. intros F. unfold parse_line. rewrite (rstrip_blank _ F). reflexivity. Qed.

(** X3. A text of whitespace only, the empty text and [None] give no block. *)
Theorem parse_blank_text (src : str) :
  Forall (fun c => isspace c = true) src ->
  parse_txt_structure (Some src) = [] /\ parse_txt_structure None = [].
Proof.
  intros F. split; [|reflexivity]. simpl.
  pose proof (splitlines_from_Forall _ (List.length src) [] src (le_n _)
                (Forall_nil _) F) as H.
  fold (splitlines src) in H.
  induction H as [|l ls Hl _ IH]; [reflexivity|].
  simpl. rewrite (parse_line_blank l Hl). exact IH.
Qed.

Lemma parse_blank_text_witness :
  Forall (fun c => isspace c = true) [SPACE; LF; CR; LF; ascii_of_N 9] /\
  parse_txt_structure (Some [SPACE; LF; CR; LF; ascii_of_N 9]) = [] /\
  parse_txt_structure None = [].
Proof.
  assert (F : Forall (fun c => isspace c = true)
                [SPACE; LF; CR; LF; ascii_of_N 9])
    by (repeat constructor).
  split; [exact F|].
  apply (parse_blank_text [SPACE; LF; CR; LF; ascii_of_N 9] F).
Defined.

(** The line breaks of [splitlines] never reach a line. *)
Lemma splitlines_from_no_break (n : nat) (cur s : str) :
  List.length s <= n ->
  Forall (fun c => Ascii.eqb c CR = false /\ is_linebreak c = false) cur ->
  Forall (Forall (fun c => Ascii.eqb c CR = false /\ is_linebreak c = false))
         (splitlines_from cur s).
Proof.
  revert cur s. induction n as [|n IH]; intros cur s L C.
  - destruct s; [|simpl in L; lia]. simpl.
    destruct cur; constructor; [exact C | constructor].
  - destruct s as [|c s]; simpl.
    + destruct cur; constructor; [exact C | constructor].
    + simpl in L. destruct (Ascii.eqb c CR) eqn:E1.
      * destruct s as [|c' s'].
        -- constructor; [exact C | apply IH; [simpl; lia | constructor]].
        -- simpl in L. destruct (Ascii.eqb c' LF);
             (constructor; [exact C | apply IH; [simpl; lia | constructor]]).
      * destruct (is_linebreak c) eqn:E2.
        -- constructor; [exact C | apply IH; [lia | constructor]].
        -- apply IH; [lia|]. apply Forall_app.
           split; [exact C | constructor; [auto | constructor]].
Qed.

(** X4. The text of a parsed block is on one line: it holds no carriage
    return, line feed or other line boundary of [splitlines]. *)
Theorem parsed_text_single_line (src : str) (b : block) :
  In b (parse_txt_structure (Some src)) ->
  Forall (fun c => c <> CR /\ c <> LF /\ is_linebreak c = false) (text b).
Proof.
  intros H. apply parse_txt_structure_inv in H as [raw_line [L H]].
  apply parse_line_inv in H as [_ [prefix [payload [E ->]]]].
  set (P := fun c => Ascii.eqb c CR = false /\ is_linebreak c = false).
  assert (Fl : Forall P raw_line).
  { pose proof (splitlines_from_no_break (List.length src) [] src (le_n _)
                  (Forall_nil _)) as F.
    rewrite Forall_forall in F. apply F. exact L. }
  assert (Fp : Forall P payload).
  { assert (F : Forall P (lstrip (rstrip raw_line)))
      by (apply dropwhile_Forall, rstrip_Forall, Fl).
    rewrite E in F. apply Forall_app in F as [_ F]. exact F. }
  rewrite sanitize_keep. apply strip_Forall.
  apply Forall_forall. intros c Hc. apply filter_In in Hc as [Hc _].
  rewrite Forall_forall in Fp. destruct (Fp c Hc) as [N1 N2].
  apply Ascii.eqb_neq in N1. repeat split; auto.
  intros ->. discriminate N2.
Qed.

Lemma parsed_text_single_line_witness :
  In (Block T_bullet (lit "two"))
     (parse_txt_structure (Some (lit "one" ++ [CR; LF] ++ lit "- two"))) /\
  Forall (fun c => c <> CR /\ c <> LF /\ is_linebreak c = false) (lit "two").
Proof.
  split.
  - vm_compute. right. left. reflexivity.
  - apply (parsed_text_single_line (lit "one" ++ [CR; LF] ++ lit "- two")
             (Block T_bullet (lit "two"))).
    vm_compute. right. left. reflexivity.
Defined.

(** X5. No line passes two of the four prefix tests of the parser, so the
    order in which [parse_txt_structure] makes them does not matter. *)
Theorem block_prefixes_exclusive (s : str) :
  startswith s (lit "# ") && startswith s (lit "## ") = false /\
  startswith s (lit "# ") && startswith s (lit "### ") = false /\
  startswith s (lit "# ") && startswith s (lit "- ") = false /\
  startswith s (lit "## ") && startswith s (lit "### ") = false /\
  startswith s (lit "## ") && startswith s (lit "- ") = false /\
  startswith s (lit "### ") && startswith s (lit "- ") = false.
Proof.
  destruct s as [|a [|b [|c [|d [|e s]]]]];
    cbn [startswith lit list_ascii_of_string];
    repeat match goal with
           | |- context [Ascii.eqb ?x ?y] =>
               is_var y; destruct (Ascii.eqb_spec x y); subst
           end;
    vm_compute; repeat split; reflexivity.
Qed.

Lemma dropwhile_app_all (q : ascii -> bool) (pre s : str) :
  Forall (fun c => q c = true) pre -> dropwhile q (pre ++ s) = dropwhile q s.
Proof. induction 1 as [|c pre Q _ IH]; simpl; [|rewrite Q]; auto. Qed.

Lemma dropwhile_app_keep (q : ascii -> bool) (s t : str) :
  dropwhile q s <> [] -> dropwhile q (s ++ t) = dropwhile q s ++ t.
Proof.
  induction s as [|c s IH]; simpl; [congruence|].
  destruct (q c); [exact IH | reflexivity].
Qed.

Lemma rstrip_app_blank (s post : str) :
  Forall (fun c => isspace c = true) post -> rstrip (s ++ post) = rstrip s.
Proof.
  intros F. unfold rstrip. rewrite rev_app_distr, dropwhile_app_all; [reflexivity|].
  apply Forall_rev_iff. exact F.
Qed.

Lemma rstrip_app_keep (pre s : str) :
  rstrip s <> [] -> rstrip (pre ++ s) = pre ++ rstrip s.
Proof.
  intros N. unfold rstrip in *. rewrite rev_app_distr, dropwhile_app_keep.
  - rewrite rev_app_distr, rev_involutive. reflexivity.
  - intros E. rewrite E in N. apply N. reflexivity.
Qed.

Lemma rstrip_empty_iff (s : str) :
  rstrip s = [] <-> Forall (fun c => isspace c = true) s.
Proof.
  split; [|apply rstrip_blank].
  unfold rstrip. intros E.
  destruct (dropwhile_split isspace (rev s)) as [pre [S F]].
  apply (f_equal (@rev _)) in E. rewrite rev_involutive in E. simpl in E.
  rewrite E, app_nil_r in S. apply Forall_rev_iff in F.
  rewrite <- S, rev_involutive in F. exact F.
Qed.

(** X6. Whitespace before and after a line does not change how the line is
    parsed: an indented heading or bullet is the heading or bullet. *)
Theorem parse_line_ignores_indentation (pre line post : str) :
  Forall (fun c => isspace c = true) pre ->
  Forall (fun c => isspace c = true) post ->
  parse_line (pre ++ line ++ post) = parse_line line.
Proof.
  intros Fpre Fpost. unfold parse_line.
  rewrite app_assoc, (rstrip_app_blank _ post Fpost).
  destruct (rstrip line) as [|c l] eqn:R.
  - apply rstrip_empty_iff in R.
    rewrite rstrip_blank; [reflexivity|]. apply Forall_app. auto.
  - rewrite rstrip_app_keep by (rewrite R; discriminate). rewrite R.
    unfold lstrip. rewrite (dropwhile_app_all isspace pre (c :: l) Fpre).
    destruct pre; reflexivity.
Qed.

Lemma parse_line_ignores_indentation_witness :
  Forall (fun c => isspace c = true) (lit "   ") /\
  Forall (fun c => isspace c = true) [SPACE; ascii_of_N 9] /\
  parse_line (lit "   " ++ lit "- point *one*" ++ [SPACE; ascii_of_N 9])
  = parse_line (lit "- point *one*").
Proof.
  assert (F1 : Forall (fun c => isspace c = true) (lit "   "))
    by (repeat constructor).
  assert (F2 : Forall (fun c => isspace c = true) [SPACE; ascii_of_N 9])
    by (repeat constructor).
  split; [exact F1|]. split; [exact F2|].
  apply (parse_line_ignores_indentation (lit "   ") (lit "- point *one*")
           [SPACE; ascii_of_N 9] F1 F2).
Defined.

(** ** Wrapping *)

Lemma split_from_empty_iff (w s : str) :
  split_from w s = [] <-> w = [] /\ Forall (fun c => isspace c = true) s.
Proof.
  revert w. induction s as [|c s IH]; intros w; simpl.
  - destruct w; split; intros H; auto; try discriminate.
    destruct H as [H _]. discriminate.
  - destruct (isspace c) eqn:Q.
    + destruct w as [|a w].
      * rewrite IH. split; intros [H F]; split; auto.
        inversion F; assumption.
      * split; [discriminate | intros [H _]; discriminate].
    + rewrite IH. split.
      * intros [H _]. destruct w; discriminate.
      * intros [_ F]. inversion F; congruence.
Qed.

Lemma split_empty_iff (s : str) :
  split s = [] <-> Forall (fun c => isspace c = true) s.
Proof.
  unfold split. rewrite split_from_empty_iff. split; [intros [_ F] | ]; auto.
Qed.

Lemma lines_loop_nonempty (cpl : Z) (ws lines : list str) (cur : str) :
  lines_loop cpl ws lines cur <> [].
Proof.
  revert lines cur. induction ws as [|w ws IH]; intros lines cur; simpl.
  - destruct lines; discriminate.
  - destruct (len cur + 1 + len w <=? cpl)%Z; apply IH.
Qed.

(** X7. [_lines_for_paragraph] raises, with [IndexError], exactly on a text
    that is not empty and holds whitespace only; on any other text it
    returns at least one line. *)
Theorem lines_for_paragraph_blank_raises (tx : str) (cpl : Z) :
  match _lines_for_paragraph tx cpl with
  | Ok lines =>
      lines <> [] /\ (tx = [] \/ ~ Forall (fun c => isspace c = true) tx)
  | Raise e =>
      e = IndexError /\ tx <> [] /\ Forall (fun c => isspace c = true) tx
  end.
Proof.
  unfold _lines_for_paragraph. destruct tx as [|c s] eqn:T.
  - split; [discriminate | left; reflexivity].
  - rewrite <- T. unfold list_get. simpl.
    destruct (split tx) as [|w ws] eqn:S; simpl.
    + apply split_empty_iff in S. subst. repeat split; [discriminate | exact S].
    + split; [apply lines_loop_nonempty|]. right. intros F.
      apply split_empty_iff in F. congruence.
Qed.

Lemma join_space_merge (a b : str) (l : list str) :
  join_space ((a ++ SPACE :: b) :: l) = join_space (a :: b :: l).
Proof.
  destruct l as [|c l]; [reflexivity|].
  cbn [join_space]. rewrite <- app_assoc. reflexivity.
Qed.

Lemma join_space_app (l1 l2 : list str) :
  l1 <> [] -> l2 <> [] ->
  join_space (l1 ++ l2) = join_space l1 ++ SPACE :: join_space l2.
Proof.
  intros N1 N2. induction l1 as [|a l1 IH]; [congruence|].
  destruct l1 as [|b l1].
  - destruct l2; [congruence | reflexivity].
  - change ((a :: b :: l1) ++ l2) with (a :: ((b :: l1) ++ l2)).
    change (join_space (a :: (b :: l1) ++ l2))
      with (a ++ SPACE :: join_space ((b :: l1) ++ l2)).
    rewrite IH by discriminate.
    change (join_space (a :: b :: l1)) with (a ++ SPACE :: join_space (b :: l1)).
    rewrite <- app_assoc. reflexivity.
Qed.

Lemma join_space_merge_in (l1 : list str) (a b : str) (l2 : list str) :
  join_space (l1 ++ (a ++ SPACE :: b) :: l2) = join_space (l1 ++ a :: b :: l2).
Proof.
  destruct l1 as [|c l1]; [apply join_space_merge|].
  rewrite !join_space_app by discriminate. rewrite join_space_merge. reflexivity.
Qed.

(** Joined by spaces, the lines of the loop of [_lines_for_paragraph]
    are the lines it had, the current line and the words left. *)
Lemma lines_loop_join (cpl : Z) (ws lines : list str) (cur : str) :
  join_space (lines_loop cpl ws lines cur) = join_space (lines ++ cur :: ws).
Proof.
  revert lines cur. induction ws as [|w ws IH]; intros lines cur; simpl.
  - reflexivity.
  - destruct (len cur + 1 + len w <=? cpl)%Z; rewrite IH.
    + apply join_space_merge_in.
    + rewrite <- app_assoc. reflexivity.
Qed.

(** X8. Wrapping loses, adds and moves no word: the lines of
    [_lines_for_paragraph], joined by single spaces, are the words of the
    text joined by single spaces. *)
Theorem lines_for_paragraph_keeps_words (tx : str) (cpl : Z) (lines : list str) :
  _lines_for_paragraph tx cpl = Ok lines ->
  join_space lines = join_space (split tx).
Proof.
  unfold _lines_for_paragraph. destruct tx as [|c s] eqn:T.
  - intros H. injection H as <-. reflexivity.
  - rewrite <- T. unfold list_get. simpl.
    destruct (split tx) as [|w ws] eqn:S; simpl; [discriminate|].
    intros H. injection H as <-. apply (lines_loop_join cpl ws [] w).
Qed.

Lemma lines_for_paragraph_keeps_words_witness :
  _lines_for_paragraph (lit " Hello   world and  more ") 11
    = Ok [lit "Hello world"; lit "and more"] /\
  join_space [lit "Hello world"; lit "and more"]
    = join_space (split (lit " Hello   world and  more ")).
Proof.
  split; [reflexivity|].
  apply (lines_for_paragraph_keeps_words (lit " Hello   world and  more ") 11
           [lit "Hello world"; lit "and more"]).
  reflexivity.
Defined.

Lemma filter_nonempty_lines_loop (cpl : Z) (ws lines : list str) (cur : str) :
  cur <> [] -> Forall is_word ws ->
  List.filter nonempty (lines_loop cpl ws lines cur)
  = lines_loop cpl ws (List.filter nonempty lines) cur.
Proof.
  revert lines cur. induction ws as [|w ws IH]; intros lines cur N W; simpl.
  - rewrite filter_app. simpl. destruct cur; [congruence | reflexivity].
  - inversion W as [|? ? [Hw _] Hws]; subst.
    destruct (len cur + 1 + len w <=? cpl)%Z.
    + apply IH; [destruct cur; discriminate | exact Hws].
    + rewrite IH by assumption. rewrite filter_app. simpl.
      destruct cur; [congruence | reflexivity].
Qed.

Lemma pptx_wrap_loop_join (cpl : Z) (ws lines : list str) (cur : str) :
  Forall is_word ws -> is_word cur ->
  snd (pptx_wrap_loop cpl ws lines cur) <> [] /\
  join_space (List.filter nonempty
                (fst (pptx_wrap_loop cpl ws lines cur)
                 ++ [snd (pptx_wrap_loop cpl ws lines cur)]))
  = join_space (List.filter nonempty lines ++ cur :: ws).
Proof.
  intros W C.
  destruct (pptx_wrap_loop_lines_loop cpl ws lines cur W) as [N E].
  - destruct C. assumption.
  - apply is_word_no_padding. exact C.
  - split; [exact N|]. rewrite <- E.
    rewrite filter_nonempty_lines_loop; [|destruct C; assumption | exact W].
    apply lines_loop_join.
Qed.

(** X9. The lines the slide renderer wraps a text into hold the words of the
    text, all of them, once and in order: joined by single spaces, the
    lines that are not empty are the words joined by single spaces. *)
Theorem pptx_wrap_keeps_words (cpl : Z) (tx : str) :
  join_space (List.filter nonempty (pptx_wrap cpl tx)) = join_space (split tx).
Proof.
  unfold pptx_wrap. pose proof (split_words tx) as W.
  destruct (split tx) as [|w ws]; [reflexivity|].
  inversion W as [|? ? Hw Hws]; subst.
  cbn [pptx_wrap_loop]. change ([] ++ [SPACE] ++ w) with (SPACE :: w).
  rewrite (strip_first_word w Hw).
  destruct (len w <=? cpl)%Z.
  - destruct (pptx_wrap_loop_join cpl ws [] w Hws Hw) as [N E].
    destruct (pptx_wrap_loop cpl ws [] w) as [lines cur]. simpl in *.
    destruct cur; [congruence | exact E].
  - cbn [app].
    match goal with
    | |- context [pptx_wrap_loop cpl ws ?l w] =>
        destruct (pptx_wrap_loop_join cpl ws l w Hws Hw) as [N E];
        destruct (pptx_wrap_loop cpl ws l w) as [lines cur]
    end.
    simpl in *.
    destruct cur; [congruence | exact E].
Qed.

(** A match of a pattern made of single characters, all in group 1, is
    the group, and it has one character for each item. *)
Lemma re_match_group_once (r : regex) (s g rest : str) :
  Forall (fun it => in_group it = true /\ quant it = Once) r ->
  In (g, rest) (re_match r s) ->
  s = g ++ rest /\ List.length g = List.length r.
Proof.
  intros F. revert s g. induction F as [|it r [G Q] _ IH]; intros s g H.
  - destruct H as [H|[]]. injection H as <- <-. auto.
  - apply re_match_cons in H as [a [mid [g' [H1 [H2 ->]]]]].
    rewrite G. unfold item_alts in H1. rewrite Q in H1.
    destruct s as [|c s]; [destruct H1|].
    destruct (cls it c); [|destruct H1].
    destruct H1 as [H1|[]]. injection H1 as <- <-.
    destruct (IH _ _ H2) as [-> L]. simpl. auto.
Qed.

Lemma re_run15_group_once :
  Forall (fun it => in_group it = true /\ quant it = Once) re_run15.
Proof.
  apply Forall_forall. intros it H. apply repeat_spec in H. subst. auto.
Qed.

Lemma without_soft_hyphen_app (a b : str) :
  without_soft_hyphen (a ++ b) = without_soft_hyphen a ++ without_soft_hyphen b.
Proof. apply filter_app. Qed.

Lemma soften_loop (f : str -> str) (fuel : nat) (s : str) :
  (forall g, f g = g ++ [SOFT_HYPHEN]) ->
  without_soft_hyphen (sub_loop fuel re_run15 f s) = without_soft_hyphen s /\
  List.length s <= List.length (sub_loop fuel re_run15 f s) /\
  15 * List.length (sub_loop fuel re_run15 f s) <= 16 * List.length s.
Proof.
  intros Hf. revert s. induction fuel as [|n IH]; intros s.
  - cbn [sub_loop]. repeat split; lia.
  - destruct s as [|c s]; [cbn; repeat split; lia|]. cbn [sub_loop].
    destruct (re_match re_run15 (c :: s)) as [|[g rest] l] eqn:E.
    + destruct (IH s) as [H1 [H2 H3]].
      change (c :: sub_loop n re_run15 f s) with ([c] ++ sub_loop n re_run15 f s).
      change (c :: s) with ([c] ++ s).
      rewrite !without_soft_hyphen_app, H1, !length_app.
      cbn [List.length]. repeat split; lia.
    + assert (H : In (g, rest) (re_match re_run15 (c :: s)))
        by (rewrite E; left; reflexivity).
      apply (re_match_group_once _ _ _ _ re_run15_group_once) in H as [S L].
      rewrite S, Hf. destruct (IH rest) as [H1 [H2 H3]].
      rewrite !without_soft_hyphen_app, H1, !length_app, L.
      change (List.length re_run15) with 15.
      change (without_soft_hyphen [SOFT_HYPHEN]) with (@nil ascii).
      rewrite app_nil_r. cbn [List.length]. repeat split; lia.
Qed.

(** X10. Softening only inserts soft hyphens, at most one for 15 characters:
    without its soft hyphens the softened text is the text without its
    own, and it is at most a fifteenth longer. *)
Theorem soften_inserts_soft_hyphens (tx : str) :
  without_soft_hyphen (soften tx) = without_soft_hyphen tx /\
  List.length tx <= List.length (soften tx) /\
  15 * List.length (soften tx) <= 16 * List.length tx.
Proof. apply soften_loop. reflexivity. Qed.

(** ** The fixed-page and the flowing-document renderers *)

Lemma story_texts_app (a b : list flowable) :
  story_texts (a ++ b) = story_texts a ++ story_texts b.
Proof. apply flat_map_app. Qed.

Lemma story_texts_emit (segs : list segment) :
  story_texts (flat_map emit segs) = map text (flat_map segment_blocks segs).
Proof.
  induction segs as [|sg segs IH]; [reflexivity|].
  cbn [flat_map]. rewrite story_texts_app, map_app, IH. f_equal.
  destruct sg as [items|b]; simpl.
  - rewrite app_nil_r, map_map. simpl. symmetry. apply map_id.
  - destruct (type b); reflexivity.
Qed.

Lemma page_breaks_emit (segs : list segment) :
  List.filter is_page_break (flat_map emit segs)
  = map (fun _ => PageBreak)
        (List.filter is_h1 (flat_map segment_blocks segs)).
Proof.
  induction segs as [|sg segs IH]; [reflexivity|].
  cbn [flat_map]. rewrite !filter_app, map_app, IH. f_equal.
  destruct sg as [items|b]; simpl.
  - induction items as [|i items IHi]; [reflexivity | exact IHi].
  - unfold is_h1. destruct (type b); reflexivity.
Qed.

(** X12. The fixed-page renderer hands the library one story: after the four
    flowables of its head, the story draws the texts of the blocks, each
    once and in their order, and it holds one page break for each level-1
    heading.  The renderer returns when the library makes the document of
    that story, and raises what the library raises when it does not. *)
Theorem pdf_story_keeps_texts (e : env) (blocks : list block) (title : str) :
  exists st,
    render e (lit "pdf") blocks title
    = Some (lit ".pdf",
            match build_document e (PdfFile st) with
            | Ok _ => Ok (PdfFile st)
            | Raise x => Raise x
            end) /\
    firstn 1 st = [Paragraph title TitleX] /\
    story_texts (skipn 4 st) = map text blocks /\
    List.length (List.filter is_page_break st)
      = List.length (List.filter is_h1 blocks).
Proof.
  destruct (pick_palette_ok title) as [pal [E _]].
  unfold render, txt_to_pdf. rewrite E. cbn [bind str_eqb].
  eexists. split; [reflexivity|].
  rewrite pdf_loop_story. cbn [story bullets prepend].
  split; [reflexivity|]. split.
  - cbn [pdf_head app skipn].
    match goal with |- context [drop 0 ?l] => change (drop 0 l) with l end.
    rewrite story_texts_emit, segments_blocks.
    reflexivity.
  - rewrite filter_app. cbn [pdf_head List.filter is_page_break app].
    rewrite page_breaks_emit, segments_blocks, length_map. reflexivity.
Qed.

Lemma docx_texts_steps (blocks : list block) :
  docx_texts (flat_map docx_step blocks) = map text blocks.
Proof.
  induction blocks as [|b blocks IH]; [reflexivity|].
  cbn [flat_map map]. unfold docx_texts in *. rewrite flat_map_app, IH.
  unfold docx_step. destruct (type b); reflexivity.
Qed.

Lemma docx_breaks_steps (blocks : list block) :
  List.length (List.filter is_docx_page_break (flat_map docx_step blocks))
  = List.length (List.filter is_h1 blocks).
Proof.
  induction blocks as [|b blocks IH]; [reflexivity|].
  cbn [flat_map List.filter]. rewrite filter_app, length_app, IH.
  unfold is_h1, docx_step. destruct (type b); reflexivity.
Qed.

Lemma docx_paragraphs_steps (blocks : list block) :
  List.length (List.filter (fun i => negb (is_docx_page_break i))
                 (flat_map docx_step blocks))
  = List.length blocks.
Proof.
  induction blocks as [|b blocks IH]; [reflexivity|].
  cbn [flat_map]. rewrite filter_app, length_app, IH.
  unfold docx_step. destruct (type b); reflexivity.
Qed.

(** X13. The flowing-document renderer hands the library one document: after
    the title and an empty paragraph, it holds one paragraph for each
    block, a bullet included, with the text of the block and in the order
    of the blocks, and one page break for each level-1 heading.  The
    renderer returns when the library makes that document, and raises
    what the library raises when it does not. *)
Theorem docx_keeps_texts (e : env) (blocks : list block) (title : str) :
  exists d,
    render e (lit "docx") blocks title
    = Some (lit ".docx",
            match build_document e (DocxFile d) with
            | Ok _ => Ok (DocxFile d)
            | Raise x => Raise x
            end) /\
    firstn 2 d = [DocxParagraph title (Some (lit "TitleX")); DocxParagraph [] None] /\
    docx_texts (skipn 2 d) = map text blocks /\
    List.length (List.filter (fun i => negb (is_docx_page_break i)) (skipn 2 d))
      = List.length blocks /\
    List.length (List.filter is_docx_page_break d)
      = List.length (List.filter is_h1 blocks).
Proof.
  destruct (pick_palette_ok title) as [pal [E _]].
  unfold render, txt_to_docx. rewrite E. cbn [bind str_eqb].
  eexists. split; [reflexivity|].
  cbn [app firstn skipn List.filter is_docx_page_break].
  match goal with |- context [drop 0 ?l] => change (drop 0 l) with l end.
  auto using docx_texts_steps, docx_breaks_steps, docx_paragraphs_steps.
Qed.

(** ** The slide renderer: capacity, cover, level-2 headings, texts *)

(** X14. Every slide of a deck holds at most [MAX_LINES] needed lines, unless
    it holds one block only: a slide is over the capacity only with a
    single block that alone needs more than [MAX_LINES] lines. *)
Theorem slide_over_capacity_holds_one_block (blocks : list block)
    (title : str) (slides : list slide) (sl : slide) :
  txt_to_pptx blocks title = Ok slides -> In sl slides ->
  (load sl <= MAX_LINES)%Z \/
  exists n, placed sl = [n] /\ (MAX_LINES < n)%Z.
Proof.
  unfold txt_to_pptx. destruct (pick_palette title) as [pal|e]; [|discriminate].
  cbn [bind]. intros H I. injection H as <-.
  pose proof (capacity_unless_single_block pal title blocks) as F.
  rewrite Forall_forall in F. destruct (F sl I) as [L|[n E]]; [left; exact L|].
  destruct (Z_le_gt_dec n MAX_LINES) as [L|G].
  - left. unfold load. rewrite E. simpl. lia.
  - right. exists n. split; [exact E | lia].
Qed.

Lemma slide_over_capacity_holds_one_block_witness :
  exists slides sl,
    txt_to_pptx [Block T_p (lit "one"); Block T_p (lit "two")] (lit "Demo")
      = Ok slides /\
    In sl slides /\ placed sl = [1; 1]%Z /\
    ((load sl <= MAX_LINES)%Z \/
     exists n, placed sl = [n] /\ (MAX_LINES < n)%Z).
Proof.
  eexists. eexists. split; [vm_compute; reflexivity|].
  split; [right; left; reflexivity|]. split; [reflexivity|].
  eapply (slide_over_capacity_holds_one_block
            [Block T_p (lit "one"); Block T_p (lit "two")] (lit "Demo")).
  - vm_compute. reflexivity.
  - right. left. reflexivity.
Defined.




Lemma add_paragraph_last (c : rgb) (pre : list shape) (bx : box)
    (ps : list para) (pl : list Z) (q : para) :
  add_paragraph (List.length pre) q (Slide c (pre ++ [TextBox bx ps]) pl)
  = Slide c (pre ++ [TextBox bx (ps ++ [q])]) pl.
Proof.
  unfold add_paragraph. cbn [background shapes placed]. f_equal.
  induction pre as [|sh pre IH]; [reflexivity|].
  simpl. f_equal. exact IH.
Qed.

Lemma fold_add_paragraph_last (pal : palette) (lines : list str) (c : rgb)
    (pre : list shape) (bx : box) (ps : list para) (pl : list Z) :
  fold_left (fun sl ln => add_paragraph (List.length pre) (line_para pal ln) sl)
            lines (Slide c (pre ++ [TextBox bx ps]) pl)
  = Slide c (pre ++ [TextBox bx (ps ++ map (line_para pal) lines)]) pl.
Proof.
  revert ps. induction lines as [|ln lines IH]; intros ps; simpl.
  - rewrite app_nil_r. reflexivity.
  - rewrite add_paragraph_last, IH, <- app_assoc. reflexivity.
Qed.



Lemma line_para_texts (pal : palette) (lines : list str) :
  map p_text (List.filter has_font (map (line_para pal) lines)) = lines.
Proof.
  induction lines as [|ln lines IH]; [reflexivity|].
  simpl. f_equal. exact IH.
Qed.

Lemma slide_texts_last (pal : palette) (c : rgb) (pre : list shape) (bx : box)
    (ps : list para) (pl pl' : list Z) (lines : list str) :
  slide_texts (Slide c (pre ++ [TextBox bx (ps ++ map (line_para pal) lines)]) pl')
  = slide_texts (Slide c (pre ++ [TextBox bx ps]) pl) ++ lines.
Proof.
  unfold slide_texts. cbn [shapes]. rewrite !flat_map_app. cbn [flat_map].
  rewrite filter_app, map_app, line_para_texts, !app_nil_r, app_assoc.
  reflexivity.
Qed.

Lemma block_lines_content (b : block) :
  type b <> T_h1 -> type b <> T_h2 ->
  block_lines b = pptx_wrap CHAR_PER_LINE (soften (text b)).
Proof.
  intros H1 H2. unfold block_lines. destruct (type b); congruence.
Qed.

(** A step of the loop writes the lines of its block after all that was
    written, and [tf] stays the frame of the last shape. *)
Lemma pptx_step_texts (pal : palette) (st : pptx_state) (b : block) :
  tf_last st ->
  tf_last (pptx_step pal st b) /\
  flat_map slide_texts (deck (pptx_step pal st b))
  = flat_map slide_texts (deck st) ++ block_lines b.
Proof.
  intros [pre [bx [ps [Sh Tf]]]].
  assert (C : type b = T_h1 \/ type b = T_h2 \/ (type b <> T_h1 /\ type b <> T_h2))
    by (destruct (type b); auto; right; right; split; discriminate).
  destruct C as [T|[T|[T1 T2]]].
  - unfold pptx_step, block_lines. rewrite T. cbn. split.
    + eexists [_], _, _. split; reflexivity.
    + unfold deck. cbn [finished active]. rewrite !flat_map_app.
      cbn. rewrite !app_nil_r, <- !app_assoc. reflexivity.
  - unfold pptx_step, block_lines. rewrite T. cbn. split.
    + eexists [_; _; _], _, _. split; reflexivity.
    + unfold deck. cbn [finished active]. rewrite !flat_map_app.
      cbn. rewrite !app_nil_r. reflexivity.
  - rewrite (pptx_step_content pal st b T1 T2), (block_lines_content b T1 T2).
    unfold ensure_space.
    destruct (needed_lines (text b) + used_lines st >? MAX_LINES)%Z;
      cbn [active tf finished used_lines].
    + unfold content_slide. rewrite fold_add_paragraph.
      cbn [background shapes placed]. split.
      * eexists [_], _, _. split; reflexivity.
      * unfold deck at 1. cbn [finished active]. rewrite flat_map_app.
        cbn [flat_map]. rewrite app_nil_r.
        change [Rectangle (Box 0 0 35 SLIDE_HEIGHT) (accent pal);
                TextBox (Box TEXT_BOX_LEFT TEXT_BOX_TOP TEXT_BOX_WIDTH
                           TEXT_BOX_HEIGHT)
                  ([empty_para] ++ map (line_para pal)
                     (pptx_wrap CHAR_PER_LINE (soften (text b))))]
          with ([Rectangle (Box 0 0 35 SLIDE_HEIGHT) (accent pal)]
                ++ [TextBox (Box TEXT_BOX_LEFT TEXT_BOX_TOP TEXT_BOX_WIDTH
                               TEXT_BOX_HEIGHT)
                      ([empty_para] ++ map (line_para pal)
                         (pptx_wrap CHAR_PER_LINE (soften (text b))))]).
        rewrite (slide_texts_last pal _ _ _ _ [] _). reflexivity.
    + destruct (active st) as [c sh pl] eqn:A. cbn [shapes] in Sh. subst sh.
      rewrite Tf, fold_add_paragraph_last. cbn [background shapes placed]. split.
      * eexists pre, _, _. split; reflexivity.
      * unfold deck. cbn [finished active]. rewrite A, !flat_map_app.
        cbn [flat_map]. rewrite !app_nil_r, (slide_texts_last pal _ _ _ _ pl _).
        rewrite app_assoc. reflexivity.
Qed.

Lemma pptx_fold_texts (pal : palette) (blocks : list block) (st : pptx_state) :
  tf_last st ->
  flat_map slide_texts (deck (fold_left (pptx_step pal) blocks st))
  = flat_map slide_texts (deck st) ++ flat_map block_lines blocks.
Proof.
  revert st. induction blocks as [|b blocks IH]; intros st T; simpl.
  - symmetry. apply app_nil_r.
  - destruct (pptx_step_texts pal st b T) as [T' E].
    rewrite (IH _ T'), E, app_assoc. reflexivity.
Qed.

(** X17. The texts written on the slides of the deck, in the order of the
    slides and of their shapes, are the title, then for each block, in
    the order of the blocks, the softened text of a heading of level 1 or
    2 or the wrapped lines of another block: nothing is left out, written
    twice or moved. *)
Theorem pptx_deck_keeps_texts (blocks : list block) (title : str) :
  exists slides,
    txt_to_pptx blocks title = Ok slides /\
    flat_map slide_texts slides = title :: flat_map block_lines blocks.
Proof.
  destruct (pick_palette_ok title) as [pal [E _]].
  unfold txt_to_pptx. rewrite E. cbn [bind]. eexists. split; [reflexivity|].
  unfold pptx_run. rewrite pptx_fold_texts; [reflexivity|].
  eexists [_], _, _. split; reflexivity.
Qed.

(** ** The entry point: errors, file types, path hints *)

Lemma str_eqb_eq (a b : str) : str_eqb a b = true -> a = b.
Proof. unfold str_eqb. destruct (list_eq_dec ascii_dec a b); [auto | discriminate]. Qed.

Lemma render_cases (e : env) (filetype : str) (blocks : list block)
    (topic : str) :
  (~ In filetype [lit "pdf"; lit "docx"; lit "pptx"] /\
   render e filetype blocks topic = None) \/
  (In filetype [lit "pdf"; lit "docx"; lit "pptx"] /\
   exists f, render e filetype blocks topic
             = Some (lit "." ++ filetype, built e f)).
Proof.
  assert (R : forall ft, In ft [lit "pdf"; lit "docx"; lit "pptx"] ->
            exists f, render e ft blocks topic = Some (lit "." ++ ft, built e f)).
  { intros ft I. destruct (rendered_render e ft blocks topic I) as [f [_ Rf]].
    eauto. }
  destruct (str_eqb filetype (lit "pdf")) eqn:E1;
    [apply str_eqb_eq in E1; right; split; [|apply R]; subst; simpl; auto|].
  destruct (str_eqb filetype (lit "docx")) eqn:E2;
    [apply str_eqb_eq in E2; right; split; [|apply R]; subst; simpl; auto|].
  destruct (str_eqb filetype (lit "pptx")) eqn:E3;
    [apply str_eqb_eq in E3; right; split; [|apply R]; subst; simpl; auto|].
  left. split.
  - intros [<-|[<-|[<-|[]]]]; discriminate.
  - unfold render. rewrite E1, E2, E3. reflexivity.
Qed.

(** X18. Without an API key, unset or empty, [file_generator] raises a
    [RuntimeError] and changes nothing.  With a key, an exception of the
    call is one raised by the code it calls outside the module: the
    language model, [os.makedirs], the opening of a file for writing or
    the document library; the call has then opened no document, and it
    has written nothing or the text file only.  A call that returns has
    written a file at the path it returns. *)
Theorem file_generator_failures (e : env) (w : world) (topic filetype : str)
    (save_path : option str) :
  let r := file_generator e w topic filetype save_path in
  match GEMINI_API_KEY e with
  | None | Some [] =>
      r = (Raise (RuntimeError (lit "Gemini API key missing.")), w)
  | Some _ =>
      match r.1 with
      | Raise x =>
          (generate_content e (prompt topic) = Raise x \/
           makedirs e (DEFAULT_SAVE_PATH e) = Raise x \/
           (exists path, open_for_writing e path = Raise x) \/
           (exists f, build_document e f = Raise x)) /\
          opened r.2 = opened w /\
          (files r.2 = files w \/
           exists answer,
             generate_content e (prompt topic) = Ok answer /\
             files r.2
             = <[text_path e topic save_path := TextFile (strip answer)]>
                 (files w))
      | Ok path => is_Some (files r.2 !! path)
      end
  end.
Proof.
  intros r.
  assert (R : r = file_generator e w topic filetype save_path) by reflexivity.
  clearbody r. destruct (GEMINI_API_KEY e) as [[|c key]|] eqn:K.
  - rewrite R. unfold file_generator, _ensure_genai. rewrite K. reflexivity.
  - assert (KS : key_set e) by (exists (c :: key); split; [exact K | discriminate]).
    destruct (generate_content e (prompt topic)) as [answer|x] eqn:G.
    + assert (P : prepared e save_path \/
                  (makedirs e (DEFAULT_SAVE_PATH e) <> Ok tt /\
                   resolve_save_path e topic save_path
                   = let* _ := makedirs e (DEFAULT_SAVE_PATH e) in
                     Ok (text_path e topic save_path))).
      { unfold prepared, resolve_save_path, text_path.
        destruct save_path as [[|a q]|]; auto;
          (destruct (makedirs e (DEFAULT_SAVE_PATH e)) as [[]|y];
           [left; reflexivity | right; split; [discriminate | reflexivity]]). }
      destruct P as [P|[M E]].
      * rewrite (file_generator_answered e w topic filetype save_path answer
                   KS G P) in R.
        cbn zeta in R. unfold write_file at 1 in R.
        destruct (open_for_writing e (text_path e topic save_path))
          as [[]|x] eqn:O; cbn [bind] in R.
        2:{ rewrite R. cbn [fst snd].
            split; [right; right; left; eauto|]. auto. }
        destruct (render_cases e filetype
                    (parse_txt_structure (Some (strip answer))) topic)
          as [[_ T]|[_ [f T]]]; rewrite T in R.
        -- rewrite R. cbn [fst snd files]. rewrite lookup_insert_eq. eauto.
        -- unfold built, write_file in R.
           destruct (build_document e f) as [[]|x] eqn:B; cbn [bind] in R.
           2:{ rewrite R. cbn [fst snd files opened].
               split; [right; right; right; eauto|]. split; [reflexivity|].
               right. eauto. }
           destruct (open_for_writing e _) as [[]|x] eqn:O2 in R;
             cbn [bind] in R; rewrite R;
             cbn [fst snd files opened open_file].
           ++ rewrite lookup_insert_eq. eauto.
           ++ split; [right; right; left; eauto|]. split; [reflexivity|].
              right. eauto.
      * rewrite R. unfold file_generator, _ensure_genai. rewrite K.
        unfold prompt in G. rewrite G, E.
        destruct (makedirs e (DEFAULT_SAVE_PATH e)) as [[]|y]; [congruence|].
        cbn [bind fst snd]. split; [right; left; reflexivity|]. auto.
    + rewrite R. unfold file_generator, _ensure_genai. rewrite K.
      unfold prompt in G. rewrite G. cbn [fst snd].
      split; [left; reflexivity|]. auto.
  - rewrite R. unfold file_generator, _ensure_genai. rewrite K. reflexivity.
Qed.

Lemma file_generator_text_only (e : env) (w : world) (topic filetype : str)
    (save_path : option str) (answer : str) :
  key_set e -> ~ In filetype [lit "pdf"; lit "docx"; lit "pptx"] ->
  generate_content e (prompt topic) = Ok answer ->
  prepared e save_path ->
  file_generator e w topic filetype save_path
  = match open_for_writing e (text_path e topic save_path) with
    | Ok _ =>
        (Ok (text_path e topic save_path),
         World (<[text_path e topic save_path := TextFile (strip answer)]>
                  (files w))
               (opened w))
    | Raise x => (Raise x, w)
    end.
Proof.
  intros KS N G P.
  rewrite (file_generator_answered e w topic filetype save_path answer KS G P).
  cbn zeta. unfold write_file.
  destruct (open_for_writing e (text_path e topic save_path)) as [[]|x];
    cbn [bind]; [|reflexivity].
  destruct (render_cases e filetype
              (parse_txt_structure (Some (strip answer))) topic)
    as [[_ R]|[I _]]; [|contradiction].
  rewrite R. reflexivity.
Qed.

(** X19. With a file type other than pdf, docx and pptx ("txt" is the one the
    dispatcher gives when the call names none), once the key is set, the
    model has answered and, without a path hint, the default directory
    can be made, nothing is rendered or opened: when the text file can be
    opened for writing, at the hinted or the default path, the call
    writes the generated text there and returns that path; when it
    cannot, as for a topic with a slash whose default path lies in a
    directory that does not exist, the call raises the error of the
    operating system and has written nothing. *)
Theorem file_generator_plain_text (e : env) (w : world) (topic filetype : str)
    (save_path : option str) (answer : str) :
  key_set e -> ~ In filetype [lit "pdf"; lit "docx"; lit "pptx"] ->
  generate_content e (prompt topic) = Ok answer ->
  prepared e save_path ->
  file_generator e w topic filetype save_path
  = match open_for_writing e (text_path e topic save_path) with
    | Ok _ =>
        (Ok (text_path e topic save_path),
         World (<[text_path e topic save_path := TextFile (strip answer)]>
                  (files w))
               (opened w))
    | Raise x => (Raise x, w)
    end.
Proof. apply file_generator_text_only. Qed.

Lemma file_generator_plain_text_witness :
  let e := Env (Some (lit "key")) (lit "/home/u/Documents/AssistantOutputs")
               (fun _ => Ok (lit " Hello "))
               (fun _ => Ok tt)
               (fun path => if contains (lit "TCP/") path then Raise OSError
                            else Ok tt)
               (fun _ => Ok tt) in
  let w := World ∅ [] in
  key_set e /\ ~ In (lit "txt") [lit "pdf"; lit "docx"; lit "pptx"] /\
  generate_content e (prompt (lit "TCP/IP")) = Ok (lit " Hello ") /\
  prepared e None /\
  file_generator e w (lit "TCP/IP") (lit "txt") None
  = match open_for_writing e (text_path e (lit "TCP/IP") None) with
    | Ok _ =>
        (Ok (text_path e (lit "TCP/IP") None),
         World (<[text_path e (lit "TCP/IP") None
                  := TextFile (strip (lit " Hello "))]> (files w))
               (opened w))
    | Raise x => (Raise x, w)
    end.
Proof.
  intros e w.
  assert (KS : key_set e) by (exists (lit "key"); split; [reflexivity | discriminate]).
  assert (N : ~ In (lit "txt") [lit "pdf"; lit "docx"; lit "pptx"])
    by (intros [H|[H|[H|[]]]]; discriminate).
  split; [exact KS|]. split; [exact N|]. split; [reflexivity|].
  split; [reflexivity|].
  apply (file_generator_plain_text e w (lit "TCP/IP") (lit "txt") None
           (lit " Hello ") KS N eq_refl eq_refl).
Defined.

Lemma contains_spec (old s : str) :
  contains old s = true <-> exists pre rest, s = pre ++ old ++ rest.
Proof.
  induction s as [|c s IH]; cbn [contains].
  - rewrite orb_false_r. split.
    + intros H. exists [], []. destruct old; [reflexivity | discriminate].
    + intros [pre [rest E]]. destruct pre; [|discriminate].
      destruct old; [reflexivity | discriminate].
  - rewrite orb_true_iff, IH. split.
    + intros [H|[pre [rest E]]].
      * exists [], (skipn (List.length old) (c :: s)).
        apply (startswith_skipn _ _ H).
      * exists (c :: pre), rest. simpl. congruence.
    + intros [pre [rest E]]. destruct pre as [|a pre].
      * left. simpl in E. rewrite E. apply startswith_app.
      * right. injection E as _ E. eauto.
Qed.

Lemma replace_loop_absent (old new : str) (n : nat) (s : str) :
  contains old s = false -> replace_loop n old new s = s.
Proof.
  revert s. induction n as [|n IH]; intros s C; [reflexivity|].
  destruct s as [|c s]; [reflexivity|]. cbn [contains] in C.
  apply orb_false_iff in C as [C1 C2]. cbn [replace_loop].
  rewrite C1, (IH s C2). reflexivity.
Qed.

(** X20. With a path hint no directory is made: the generated text is written
    at the hinted path as it is.  Once the key is set, the model has
    answered and the hinted path can be opened for writing, the document
    is the one the renderer of the format makes of the blocks of that
    text, and its path is the hinted path with every [.txt] replaced by
    the extension.  When the library makes the document and its path can
    be opened, the document is written there and its path is returned
    and opened; when not, the call raises and has written the text only.
    When the hint holds no [.txt], as a hint that names the document
    itself, the two paths are one: the document overwrites the text and
    the call leaves a single file. *)
Theorem file_generator_path_hint (e : env) (w : world)
    (topic filetype q answer : str) :
  key_set e -> In filetype [lit "pdf"; lit "docx"; lit "pptx"] -> q <> [] ->
  generate_content e (prompt topic) = Ok answer ->
  open_for_writing e q = Ok tt ->
  let raw := strip answer in
  let out := replace (lit ".txt") (lit "." ++ filetype) q in
  exists f,
    rendered filetype (parse_txt_structure (Some raw)) topic f /\
    file_generator e w topic filetype (Some q)
    = match build_document e f, open_for_writing e out with
      | Ok _, Ok _ =>
          (Ok out,
           World (<[out := f]> (<[q := TextFile raw]> (files w)))
                 (opened w ++ [out]))
      | Raise x, _ | Ok _, Raise x =>
          (Raise x, World (<[q := TextFile raw]> (files w)) (opened w))
      end /\
    if contains (lit ".txt") q
    then out <> q
    else out = q /\
         <[out := f]> (<[q := TextFile raw]> (files w)) = <[q := f]> (files w).
Proof.
  intros KS F Q G O raw out.
  assert (T : text_path e topic (Some q) = q)
    by (destruct q; [congruence | reflexivity]).
  assert (P : prepared e (Some q)) by (destruct q; [congruence | exact I]).
  rewrite <- T in O.
  destruct (file_generator_rendered e w topic filetype (Some q) answer
              KS G P O F) as [f [Rf E]].
  cbn zeta in E. rewrite T in E.
  exists f. split; [exact Rf|]. split; [exact E|].
  destruct (contains (lit ".txt") q) eqn:C.
  - unfold out, replace. apply replace_loop_changes.
    + discriminate.
    + apply extension_differs. exact F.
    + lia.
    + apply contains_spec. exact C.
  - unfold out, replace. rewrite (replace_loop_absent _ _ _ _ C).
    split; [reflexivity | apply insert_insert_eq].
Qed.

Lemma file_generator_path_hint_witness :
  let e := Env (Some (lit "key")) (lit "/home/u/Documents/AssistantOutputs")
               (fun _ => Ok (lit "Hello")) (fun _ => Raise OSError)
               (fun _ => Ok tt) (fun _ => Ok tt) in
  let w := World ∅ [] in
  let q := lit "/tmp/report.pdf" in
  key_set e /\ In (lit "pdf") [lit "pdf"; lit "docx"; lit "pptx"] /\ q <> [] /\
  generate_content e (prompt (lit "Demo")) = Ok (lit "Hello") /\
  open_for_writing e q = Ok tt /\
  let raw := strip (lit "Hello") in
  let out := replace (lit ".txt") (lit "." ++ lit "pdf") q in
  exists f,
    rendered (lit "pdf") (parse_txt_structure (Some raw)) (lit "Demo") f /\
    file_generator e w (lit "Demo") (lit "pdf") (Some q)
    = match build_document e f, open_for_writing e out with
      | Ok _, Ok _ =>
          (Ok out,
           World (<[out := f]> (<[q := TextFile raw]> (files w)))
                 (opened w ++ [out]))
      | Raise x, _ | Ok _, Raise x =>
          (Raise x, World (<[q := TextFile raw]> (files w)) (opened w))
      end /\
    if contains (lit ".txt") q
    then out <> q
    else out = q /\
         <[out := f]> (<[q := TextFile raw]> (files w)) = <[q := f]> (files w).
Proof.
  intros e w q.
  assert (KS : key_set e) by (exists (lit "key"); split; [reflexivity | discriminate]).
  split; [exact KS|]. split; [left; reflexivity|]. split; [discriminate|].
  split; [reflexivity|]. split; [reflexivity|].
  apply (file_generator_path_hint e w (lit "Demo") (lit "pdf") q (lit "Hello") KS).
  - left. reflexivity.
  - discriminate.
  - reflexivity.
  - reflexivity.
Defined.

Lemma replace_loop_char (a b : ascii) (n : nat) (s : str) :
  List.length s <= n ->
  replace_loop n [a] [b] s = map (fun c => if Ascii.eqb a c then b else c) s.
Proof.
  revert s. induction n as [|n IH]; intros s L.
  - destruct s; [reflexivity | simpl in L; lia].
  - destruct s as [|c s]; [reflexivity|]. simpl in L.
    cbn [replace_loop startswith List.length skipn map].
    assert (E : startswith s [] = true) by (destruct s; reflexivity).
    rewrite E, andb_true_r.
    change (drop 0 s) with s.
    destruct (Ascii.eqb a c); cbn [app]; rewrite IH by lia; reflexivity.
Qed.

(** X21. The default file name is the topic with an underscore for each space:
    as long as the topic and without a space. *)
Theorem default_name_has_no_space (topic : str) :
  let name := replace (lit " ") (lit "_") topic in
  name = map (fun c => if Ascii.eqb SPACE c then UNDERSCORE else c) topic /\
  List.length name = List.length topic /\
  Forall (fun c => c <> SPACE) name.
Proof.
  cbn zeta.
  assert (E : replace (lit " ") (lit "_") topic
              = map (fun c => if Ascii.eqb SPACE c then UNDERSCORE else c) topic)
    by (apply (replace_loop_char SPACE UNDERSCORE); lia).
  rewrite E. split; [reflexivity|]. split; [apply length_map|].
  apply Forall_forall. intros c H. apply in_map_iff in H as [x [<- _]].
  destruct (Ascii.eqb_spec SPACE x); [discriminate | congruence].
Qed.

Lemma int16_hex2 (n : N) : (n < 256)%N -> int16 (hex 2 n) = Ok n.
Proof.
  intros H. unfold hex. cbn [seq rev app map].
  change (4 * N.of_nat 1)%N with 4%N. change (4 * N.of_nat 0)%N with 0%N.
  rewrite N.shiftr_0_r, N.shiftr_div_pow2. change (2 ^ 4)%N with 16%N.
  assert (D : (n / 16 < 16)%N) by (apply N.Div0.div_lt_upper_bound; lia).
  rewrite (N.mod_small (n / 16) 16 D).
  unfold int16. cbn [int16_from].
  rewrite (hexvalue_hexdigit _ D).
  rewrite (hexvalue_hexdigit (n mod 16)) by (apply N.mod_lt; discriminate).
  f_equal. pose proof (N.div_mod n 16 ltac:(discriminate)). lia.
Qed.

(** X22. The hexadecimal colour [_rgb_hex] writes for components below 256
    reads back: it is [#] and, on two digits each, the red, the green and
    the blue component. *)
Theorem rgb_hex_reads_back (r g b : N) :
  (r < 256)%N -> (g < 256)%N -> (b < 256)%N ->
  let h := _rgb_hex (r, g, b) in
  List.length h = 7 /\ firstn 1 h = lit "#" /\
  int16 (firstn 2 (skipn 1 h)) = Ok r /\
  int16 (firstn 2 (skipn 3 h)) = Ok g /\
  int16 (skipn 5 h) = Ok b.
Proof.
  intros Hr Hg Hb. cbn zeta.
  pose proof (int16_hex2 r Hr) as Er. pose proof (int16_hex2 g Hg) as Eg.
  pose proof (int16_hex2 b Hb) as Eb.
  unfold _rgb_hex, hex in *. cbn [seq rev app map lit list_ascii_of_string] in *.
  cbn [List.length firstn skipn].
  repeat split; assumption.
Qed.

Lemma rgb_hex_reads_back_witness :
  (82 < 256)%N /\ (145 < 256)%N /\ (255 < 256)%N /\
  let h := _rgb_hex (82, 145, 255)%N in
  List.length h = 7 /\ firstn 1 h = lit "#" /\
  int16 (firstn 2 (skipn 1 h)) = Ok 82%N /\
  int16 (firstn 2 (skipn 3 h)) = Ok 145%N /\
  int16 (skipn 5 h) = Ok 255%N.
Proof.
  split; [lia|]. split; [lia|]. split; [lia|].
  apply (rgb_hex_reads_back 82 145 255); lia.
Defined.

(** ** The tool dispatcher *)

(** X23. A [file_generator] call that names neither a file type nor a path
    raises [KeyError], and changes nothing, when it names no topic.  With
    a topic it renders and opens nothing: without an API key it raises
    the [RuntimeError]; with one, when the model answers, the default
    directory can be made and the text file at the default path can be
    opened for writing, it writes the generated text there and returns
    that path; when one of the three fails, it raises that exception and
    has changed nothing. *)
Theorem tool_call_file_generator_defaults (e : env) (t : tools) (w : world)
    (args : gmap str str) :
  args !! lit "filetype" = None -> args !! lit "save_path" = None ->
  handle_tool_call e t w (lit "file_generator") args
  = match args !! lit "topic" with
    | None => (Raise KeyError, w)
    | Some topic =>
        match GEMINI_API_KEY e with
        | None | Some [] =>
            (Raise (RuntimeError (lit "Gemini API key missing.")), w)
        | Some _ =>
            match generate_content e (prompt topic),
                  makedirs e (DEFAULT_SAVE_PATH e),
                  open_for_writing e (text_path e topic None) with
            | Ok answer, Ok _, Ok _ =>
                (Ok (text_path e topic None),
                 World (<[text_path e topic None := TextFile (strip answer)]>
                          (files w))
                       (opened w))
            | Raise x, _, _ | Ok _, Raise x, _ | Ok _, Ok _, Raise x =>
                (Raise x, w)
            end
        end
    end.
Proof.
  intros F S. unfold handle_tool_call.
  change (str_eqb (lit "file_generator") (lit "generate_os_command")) with false.
  change (str_eqb (lit "file_generator") (lit "file_generator")) with true.
  cbn iota. destruct (args !! lit "topic") as [topic|]; [|reflexivity].
  rewrite F, S. cbn [default].
  destruct (GEMINI_API_KEY e) as [[|c key]|] eqn:K;
    try (unfold file_generator, _ensure_genai; rewrite K; reflexivity).
  assert (KS : key_set e) by (exists (c :: key); split; [exact K | discriminate]).
  destruct (generate_content e (prompt topic)) as [answer|x] eqn:G.
  - destruct (makedirs e (DEFAULT_SAVE_PATH e)) as [[]|y] eqn:M.
    + rewrite (file_generator_text_only e w topic (lit "txt") None answer KS);
        [|intros [H|[H|[H|[]]]]; discriminate | exact G | exact M].
      destruct (open_for_writing e (text_path e topic None)) as [[]|z];
        reflexivity.
    + unfold file_generator, _ensure_genai. rewrite K.
      unfold prompt in G. rewrite G. unfold resolve_save_path. rewrite M.
      reflexivity.
  - unfold file_generator, _ensure_genai. rewrite K.
    unfold prompt in G. rewrite G. reflexivity.
Qed.

Lemma tool_call_file_generator_defaults_witness :
  let e := Env (Some (lit "key")) (lit "/home/u/Documents/AssistantOutputs")
               (fun _ => Ok (lit "Hello")) (fun _ => Ok tt) (fun _ => Ok tt)
               (fun _ => Ok tt) in
  let t := Tools (fun _ w => (Ok [], w)) (fun _ _ _ w => (Ok [], w))
                 (fun _ _ _ w => (Ok [], w)) in
  let w := World ∅ [] in
  let args : gmap str str := {[ lit "topic" := lit "My topic" ]} in
  args !! lit "filetype" = None /\ args !! lit "save_path" = None /\
  handle_tool_call e t w (lit "file_generator") args
  = (Ok (lit "/home/u/Documents/AssistantOutputs/My_topic.txt"),
     World {[ lit "/home/u/Documents/AssistantOutputs/My_topic.txt"
              := TextFile (lit "Hello") ]} []).
Proof.
  intros e t w args.
  split; [reflexivity|]. split; [reflexivity|].
  rewrite (tool_call_file_generator_defaults e t w args eq_refl eq_refl).
  reflexivity.
Defined.

(** X24. A call of a name that is none of the four tools runs no tool: the
    answer is "Tool not implemented" and nothing has changed. *)
Theorem tool_call_unknown_name (e : env) (t : tools) (w : world) (name : str)
    (args : gmap str str) :
  ~ In name [lit "generate_os_command"; lit "file_generator";
             lit "send_email"; lit "code_builder"] ->
  handle_tool_call e t w name args = (Ok (lit "Tool not implemented"), w).
Proof.
  intros N. unfold handle_tool_call.
  repeat match goal with
         | |- context [str_eqb name ?x] =>
             let E := fresh "E" in
             destruct (str_eqb name x) eqn:E;
             [apply str_eqb_eq in E; exfalso; apply N; subst; simpl; auto|]
         end.
  reflexivity.
Qed.

Lemma tool_call_unknown_name_witness :
  let e := Env None [] (fun _ => Ok []) (fun _ => Ok tt) (fun _ => Ok tt)
               (fun _ => Ok tt) in
  let t := Tools (fun _ w => (Ok [], w)) (fun _ _ _ w => (Ok [], w))
                 (fun _ _ _ w => (Ok [], w)) in
  ~ In (lit "open_browser")
       [lit "generate_os_command"; lit "file_generator"; lit "send_email";
        lit "code_builder"] /\
  handle_tool_call e t (World ∅ []) (lit "open_browser") ∅
  = (Ok (lit "Tool not implemented"), World ∅ []).
Proof.
  intros e t.
  assert (N : ~ In (lit "open_browser")
                [lit "generate_os_command"; lit "file_generator";
                 lit "send_email"; lit "code_builder"])
    by (intros [H|[H|[H|[H|[]]]]]; discriminate).
  split; [exact N|].
  apply (tool_call_unknown_name e t (World ∅ []) (lit "open_browser") ∅ N).
Defined.

(** ** Wrapping is greedy *)

Lemma starts_with_word_join (w l x : str) :
  starts_with_word w l -> starts_with_word w (l ++ SPACE :: x).
Proof.
  intros [->|[r ->]]; right.
  - exists x. reflexivity.
  - exists (r ++ SPACE :: x). rewrite <- app_assoc. reflexivity.
Qed.

Lemma greedy_join_last (cpl : Z) (lines : list str) (cur x : str) :
  greedy cpl (lines ++ [cur]) -> greedy cpl (lines ++ [cur ++ SPACE :: x]).
Proof.
  induction lines as [|a lines IH]; [intros _; exact I|].
  destruct lines as [|b lines].
  - cbn. intros [[w [W [S L]]] _]. split; [|exact I].
    exists w. auto using starts_with_word_join.
  - change (greedy cpl (a :: (b :: lines) ++ [cur]))
      with (had_to_break cpl a b /\ greedy cpl ((b :: lines) ++ [cur])).
    change (greedy cpl (a :: (b :: lines) ++ [cur ++ SPACE :: x]))
      with (had_to_break cpl a b
            /\ greedy cpl ((b :: lines) ++ [cur ++ SPACE :: x])).
    intros [H G]. split; [exact H | apply IH; exact G].
Qed.

Lemma greedy_snoc (cpl : Z) (lines : list str) (cur w : str) :
  greedy cpl (lines ++ [cur]) -> had_to_break cpl cur w ->
  greedy cpl ((lines ++ [cur]) ++ [w]).
Proof.
  intros G H. induction lines as [|a lines IH].
  - cbn. auto.
  - destruct lines as [|b lines].
    + cbn in *. destruct G as [G _]. auto.
    + change (greedy cpl (a :: (b :: lines) ++ [cur]))
        with (had_to_break cpl a b /\ greedy cpl ((b :: lines) ++ [cur])) in G.
      change (greedy cpl ((a :: (b :: lines) ++ [cur]) ++ [w]))
        with (had_to_break cpl a b
              /\ greedy cpl (((b :: lines) ++ [cur]) ++ [w])).
      destruct G as [Hab G]. split; [exact Hab | apply IH; exact G].
Qed.

Lemma lines_loop_greedy (cpl : Z) (ws lines : list str) (cur : str) :
  Forall is_word ws -> greedy cpl (lines ++ [cur]) ->
  greedy cpl (lines_loop cpl ws lines cur).
Proof.
  revert lines cur. induction ws as [|w ws IH]; intros lines cur W G; simpl.
  - exact G.
  - inversion W as [|? ? Hw Hws]; subst.
    destruct (Z.leb_spec (len cur + 1 + len w) cpl) as [L|L].
    + apply IH; [exact Hws | apply greedy_join_last; exact G].
    + apply IH; [exact Hws|]. apply greedy_snoc; [exact G|].
      exists w. split; [exact Hw|]. split; [left; reflexivity | lia].
Qed.

(** X11. Both wraps are greedy: a line is closed only when it has to be. For
    every line but the first, the first word of the line, joined by a
    space to the line before, would have passed the budget. *)
Theorem wrap_is_greedy (tx : str) (cpl : Z) :
  match _lines_for_paragraph tx cpl with
  | Ok lines => greedy cpl lines
  | Raise _ => True
  end /\
  greedy cpl (pptx_wrap cpl tx).
Proof.
  pose proof (split_words tx) as W. split.
  - unfold _lines_for_paragraph. destruct tx as [|c s] eqn:T; [exact I|].
    rewrite <- T in *. unfold list_get. simpl.
    destruct (split tx) as [|w ws]; simpl; [exact I|].
    inversion W; subst. apply lines_loop_greedy; [assumption | exact I].
  - unfold pptx_wrap. destruct (split tx) as [|w ws]; [exact I|].
    inversion W as [|? ? Hw Hws]; subst.
    cbn [pptx_wrap_loop]. change ([] ++ [SPACE] ++ w) with (SPACE :: w).
    rewrite (strip_first_word w Hw).
    destruct (Z.leb_spec (len w) cpl) as [L|L].
    + destruct (pptx_wrap_loop_lines_loop cpl ws [] w Hws) as [N E];
        [destruct Hw; assumption | apply is_word_no_padding; exact Hw|].
      pose proof (lines_loop_greedy cpl ws [] w Hws I) as G. rewrite E in G.
      destruct (pptx_wrap_loop cpl ws [] w) as [lines cur]. simpl in *.
      destruct cur; [congruence | exact G].
    + cbn [app].
      match goal with
      | |- context [pptx_wrap_loop cpl ws ?l w] =>
          destruct (pptx_wrap_loop_lines_loop cpl ws l w Hws) as [N E];
            [destruct Hw; assumption | apply is_word_no_padding; exact Hw|];
          assert (G : greedy cpl (lines_loop cpl ws l w));
            [apply lines_loop_greedy; [exact Hws|]; cbn; split; [|exact I];
             exists w; split; [exact Hw|]; split; [left; reflexivity|];
             unfold len in *; simpl; lia
            |];
          rewrite E in G;
          destruct (pptx_wrap_loop cpl ws l w) as [lines cur]
      end.
      simpl in *. destruct cur; [congruence | exact G].
Qed.
